(** * Aetheria Builder: the edge-matching engine for rotated blocks

    A shallow embedding of [BlockEdgeMatcher] and [WaveFunctionCollapse]
    (the edge matching system for rotated blocks) together with the
    properties of edge extraction, rotation, adjacency, the adjacency cache,
    the constraint query and the rotated-block identifiers. *)

From Stdlib Require Import ZArith Ascii DecimalString DecimalZ DecimalPos DecimalN.
From stdpp Require Import base strings list gmap.

Local Open Scope Z_scope.

(** ** The JavaScript fragment the engine runs on

    Strings are sequences of code units; the embedding covers the code units
    below 256 (Rocq's [ascii]).  Numbers are the integer-valued doubles, and
    [NaN]; array reads out of range give [undefined], rendered as [None].
    Addition, subtraction and [parseInt] round to the nearest double;
    [Number_toString] prints plain decimal digits, which is what JavaScript
    prints for the safe integers (magnitude below 2^53). *)
Module JS.

Inductive number : Type :=
  | Int (z : Z)
  | NaN.

(** A slot read from an array of numbers: [None] is [undefined]. *)
Abbreviation value := (option number) (only parsing).

(** [a === b] on numbers: [NaN] is not equal to anything, itself included. *)
Definition number_strict_eq (a b : number) : bool :=
  match a, b with
  | Int x, Int y => x =? y
  | _, _ => false
  end.

(** [a === b] on array slots: [undefined === undefined] holds. *)
Definition strict_eq (a b : value) : bool :=
  match a, b with
  | None, None => true
  | Some x, Some y => number_strict_eq x y
  | _, _ => false
  end.

Definition code (c : ascii) : Z := Z.of_N (N_of_ascii c).

(** The white space code units below 256: TAB, LF, VT, FF, CR, SP, NBSP. *)
Definition is_white_space (c : ascii) : bool :=
  let n := code c in
  ((9 <=? n) && (n <=? 13)) || (n =? 32) || (n =? 160).

(** Value of an alphanumeric digit in the given radix, as [parseInt] reads it. *)
Definition digit_of (radix : Z) (c : ascii) : option Z :=
  let n := code c in
  let d := if (48 <=? n) && (n <=? 57) then Some (n - 48)
           else if (97 <=? n) && (n <=? 122) then Some (n - 87)
           else if (65 <=? n) && (n <=? 90) then Some (n - 55)
           else None in
  match d with
  | Some v => if v <? radix then Some v else None
  | None => None
  end.

(** [Number(c)] for a one-character string [c]: a decimal digit is its value,
    a white space character trims to the empty string and gives 0, anything
    else is [NaN]. *)
Definition Number1 (c : ascii) : number :=
  match digit_of 10 c with
  | Some d => Int d
  | None => if is_white_space c then Int 0 else NaN
  end.

(** The double nearest to an integer, ties going to the even mantissa: the
    integers of magnitude below 2^53 are doubles; above, a double keeps the
    53 leading bits.  (Magnitudes from 2^1024, which give [Infinity], are
    outside the embedding.) *)
Definition round_to_double (z : Z) : Z :=
  let m := Z.abs z in
  if m <? 2 ^ 53 then z
  else
    let e := Z.log2 m - 52 in
    let q := Z.shiftr m e in
    let r := m - Z.shiftl q e in
    let half := Z.shiftl 1 (e - 1) in
    let q' := if r <? half then q
              else if half <? r then q + 1
              else if Z.even q then q else q + 1 in
    Z.sgn z * Z.shiftl q' e.

(** [a + b] and [a - b] on integer-valued doubles: the exact result,
    rounded. *)
Definition add (a b : Z) : Z := round_to_double (a + b).
Definition sub (a b : Z) : Z := round_to_double (a - b).

(** [s.split('')]: the code units of [s]. *)
Definition split_chars (s : string) : list ascii := String.list_ascii_of_string s.

(** [s.split(sep)] for a one-character separator.  The result is never
    empty: it is returned as its first element and the remaining ones. *)
Fixpoint split_char (sep : ascii) (s : string) : string * list string :=
  match s with
  | EmptyString => (EmptyString, [])
  | String c s' =>
      let (hd, tl) := split_char sep s' in
      if Ascii.eqb c sep then (EmptyString, hd :: tl) else (String c hd, tl)
  end.

(** [s.charAt(0)] *)
Definition charAt0 (s : string) : string :=
  match s with
  | EmptyString => EmptyString
  | String c _ => String c EmptyString
  end.

(** [s.slice(1)] *)
Definition slice1 (s : string) : string :=
  match s with
  | EmptyString => EmptyString
  | String _ r => r
  end.

(** [String(n)], also the conversion inside a template literal: the decimal
    digits, with a minus sign when negative.  This is what JavaScript prints
    for a safe integer; it shortens the digits of larger doubles and writes
    an exponent from 1e21 on, so statements that depend on the printed text
    of an arbitrary number are stated for safe integers. *)
Definition Number_toString (n : number) : string :=
  match n with
  | Int z => NilZero.string_of_int (Z.to_int z)
  | NaN => "NaN"
  end.

Fixpoint trim_start (s : string) : string :=
  match s with
  | String c r => if is_white_space c then trim_start r else s
  | EmptyString => EmptyString
  end.

Fixpoint read_digits_acc (radix acc : Z) (s : string) : Z :=
  match s with
  | String c r =>
      match digit_of radix c with
      | Some d => read_digits_acc radix (acc * radix + d) r
      | None => acc
      end
  | EmptyString => acc
  end.

(** The longest prefix of radix digits, [None] when it is empty. *)
Definition read_digits (radix : Z) (s : string) : option Z :=
  match s with
  | String c r =>
      match digit_of radix c with
      | Some d => Some (read_digits_acc radix d r)
      | None => None
      end
  | EmptyString => None
  end.

(** The optional sign in front of the digits. *)
Definition read_sign (s : string) : Z * string :=
  match s with
  | String "-" r => (-1, r)
  | String "+" r => (1, r)
  | _ => (1, s)
  end.

(** The radix: 16 after a [0x] or [0X] prefix, which is dropped, else 10. *)
Definition read_radix (s : string) : Z * string :=
  match s with
  | String "0" (String "x" r) => (16, r)
  | String "0" (String "X" r) => (16, r)
  | _ => (10, s)
  end.

(** The integer that [parseInt] reads, before it becomes a number: leading
    white space is skipped, a sign is read, a [0x]/[0X] prefix selects radix
    16, and the longest prefix of digits is the value; [None] when there is
    no digit at all. *)
Definition parse_integer (s : string) : option Z :=
  let s := trim_start s in
  let '(sign, s) := read_sign s in
  let '(radix, s) := read_radix s in
  match read_digits radix s with
  | Some n => Some (sign * n)
  | None => None
  end.

(** [parseInt(s)] with no radix argument: the number for the integer read,
    or [NaN].  (Past 20 significant digits an implementation may round
    otherwise.) *)
Definition parseInt (s : string) : number :=
  match parse_integer s with
  | Some n => Int (round_to_double n)
  | None => NaN
  end.

(** [for (let i = 0; i < n; i++) body], for a body that does not read [i].
    With [n] negative or [NaN] the test fails at once. *)
Definition for_lt {S : Type} (n : number) (body : S -> S) (s : S) : S :=
  match n with
  | Int k => Nat.iter (Z.to_nat k) body s
  | NaN => s
  end.

(** [Math.floor(a / 90) % 4]: floor of the quotient, then the remainder that
    takes the sign of its dividend. *)
Definition floor_div_rem (a : number) (d m : Z) : number :=
  match a with
  | Int z => Int (Z.rem (z / d) m)
  | NaN => NaN
  end.

(** How a call completes.  *)
Inductive completion (A : Type) : Type :=
  | Returns (v : A)
  | Throws (error : string).
Arguments Returns {A} v.
Arguments Throws {A} error.

End JS.

Import JS.

(** ** Data model *)

Record Rotation : Type := {
  axis : string;   (* 'x' | 'y' | 'z' *)
  angle : number;  (* 0, 90, 180, 270 *)
}.

Record BlockConfiguration : Type := {
  id : string;
  heights : string; (* 9-digit string like "555335135" *)
  rotation : option Rotation;
}.

Record EdgePattern : Type := {
  north : list value;
  east : list value;
  south : list value;
  west : list value;
}.

Inductive Direction : Type := North | South | East | West.

Definition Direction_name (d : Direction) : string :=
  match d with
  | North => "north"
  | South => "south"
  | East => "east"
  | West => "west"
  end.

(** [edges[k]] for a key [k] of [EdgePattern]. *)
Definition edge (edges : EdgePattern) (k : Direction) : list value :=
  match k with
  | North => north edges
  | South => south edges
  | East => east edges
  | West => west edges
  end.

(** [result.k = v] on the local copy of the edge record. *)
Definition set_north (v : list value) (r : EdgePattern) : EdgePattern :=
  {| north := v; east := east r; south := south r; west := west r |}.
Definition set_east (v : list value) (r : EdgePattern) : EdgePattern :=
  {| north := north r; east := v; south := south r; west := west r |}.
Definition set_south (v : list value) (r : EdgePattern) : EdgePattern :=
  {| north := north r; east := east r; south := v; west := west r |}.
Definition set_west (v : list value) (r : EdgePattern) : EdgePattern :=
  {| north := north r; east := east r; south := south r; west := v |}.

(** The result of [parseRotatedBlockId]. *)
Record ParsedId : Type := {
  baseId : string;
  parsed_rotation : option Rotation;
}.

(** ** class BlockEdgeMatcher *)
Module BlockEdgeMatcher.

(** Extract edge patterns from a 9-digit height string.
    Grid layout: 1 2 3 / 4 5 6 / 7 8 9. *)
Definition extractEdges (heights : string) : EdgePattern :=
  let h := Number1 <$> split_chars heights in
  {| north := [h !! 0%nat; h !! 1%nat; h !! 2%nat];
     east  := [h !! 2%nat; h !! 5%nat; h !! 8%nat];
     south := [h !! 8%nat; h !! 7%nat; h !! 6%nat];
     west  := [h !! 6%nat; h !! 3%nat; h !! 0%nat] |}.

(** One pass of the Z-axis loop body. *)
Definition z_body (result : EdgePattern) : EdgePattern :=
  let temp := north result in
  let result := set_north (reverse (west result)) result in
  let result := set_west (south result) result in
  let result := set_south (reverse (east result)) result in
  let result := set_east temp result in
  result.

(** One pass of the Y-axis loop body. *)
Definition y_body (result : EdgePattern) : EdgePattern :=
  let temp := north result in
  let result := set_north (reverse (south result)) result in
  let result := set_south (reverse temp) result in
  let result := set_east (reverse (east result)) result in
  let result := set_west (reverse (west result)) result in
  result.

(** One pass of the X-axis loop body. *)
Definition x_body (result : EdgePattern) : EdgePattern :=
  let temp := east result in
  let result := set_east (reverse (west result)) result in
  let result := set_west (reverse temp) result in
  let result := set_north (reverse (north result)) result in
  let result := set_south (reverse (south result)) result in
  result.

(** Apply rotation transformation to edge patterns. *)
Definition rotateEdges (edges : EdgePattern) (axis : string) (angle : number)
  : EdgePattern :=
  let rotations := floor_div_rem angle 90 4 in
  let result := edges in
  if String.eqb axis "z" then for_lt rotations z_body result
  else if String.eqb axis "y" then for_lt rotations y_body result
  else if String.eqb axis "x" then for_lt rotations x_body result
  else result.

(** The body of [rotateEdges] has no [throw]: every call returns. *)
Definition rotateEdges_call (edges : EdgePattern) (axis : string)
  (angle : number) : completion EdgePattern :=
  Returns (rotateEdges edges axis angle).

(** Get the effective edges of a block considering its rotation. *)
Definition getEffectiveEdges (block : BlockConfiguration) : EdgePattern :=
  let baseEdges := extractEdges (heights block) in
  match rotation block with
  | None => baseEdges
  | Some r =>
      if number_strict_eq (angle r) (Int 0) then baseEdges
      else rotateEdges baseEdges (axis r) (angle r)
  end.

(** Which edges need to match based on placement direction: (a, b). *)
Definition edgeMatches (direction : Direction) : Direction * Direction :=
  match direction with
  | North => (North, South)
  | South => (South, North)
  | East => (East, West)
  | West => (West, East)
  end.

(** [edgeA.every((height, index) => height === edgeB[index])], from [index]
    on.  A read of [edgeB] past its end is [undefined]. *)
Fixpoint every_eq_from (index : nat) (edgeA edgeB : list value) : bool :=
  match edgeA with
  | [] => true
  | height :: rest =>
      strict_eq height (mjoin (edgeB !! index))
      && every_eq_from (S index) rest edgeB
  end.

(** Check if two blocks can be adjacent (blockB placed to the specified
    direction of blockA). *)
Definition canBeAdjacent (blockA blockB : BlockConfiguration)
  (direction : Direction) : bool :=
  let edgesA := getEffectiveEdges blockA in
  let edgesB := getEffectiveEdges blockB in
  let match_ := edgeMatches direction in
  let edgeA := edge edgesA (fst match_) in
  let edgeB := edge edgesB (snd match_) in
  (length edgeA =? length edgeB)%nat && every_eq_from 0 edgeA edgeB.

(** Find all valid blocks that can be placed adjacent to a given block. *)
Definition findValidAdjacents (sourceBlock : BlockConfiguration)
  (direction : Direction) (availableBlocks : list BlockConfiguration)
  : list BlockConfiguration :=
  List.filter (fun block => canBeAdjacent sourceBlock block direction)
              availableBlocks.

(** Generate a unique identifier for a rotated block. *)
Definition getRotatedBlockId (baseId : string) (rotation : option Rotation)
  : string :=
  match rotation with
  | None => baseId
  | Some r =>
      if number_strict_eq (angle r) (Int 0) then baseId
      else baseId +:+ "_" +:+ axis r +:+ Number_toString (angle r)
  end.

(** Parse a rotated block ID back to its components. *)
Definition parseRotatedBlockId (rotatedId : string) : ParsedId :=
  let parts := split_char "_" rotatedId in
  match snd parts with
  | [] => {| baseId := fst parts; parsed_rotation := None |}
  | rotationPart :: _ =>
      let axis := charAt0 rotationPart in
      let angle := parseInt (slice1 rotationPart) in
      {| baseId := fst parts;
         parsed_rotation := Some {| axis := axis; angle := angle |} |}
  end.

End BlockEdgeMatcher.

(** ** class WaveFunctionCollapse *)

Record Position : Type := { x : Z; y : Z }.

Record Neighbor : Type := { pos : Position; direction : Direction }.

Module WaveFunctionCollapse.

(** The two private fields of an instance. *)
Record instance : Type := {
  blockDatabase : list BlockConfiguration;
  adjacencyCache : gmap string (gmap string bool);
}.

(** [for (const a of l) body], threading the state; [None] is a run that
    stops on a thrown [TypeError]. *)
Fixpoint for_of {S A : Type} (l : list A) (body : A -> S -> option S) (s : S)
  : option S :=
  match l with
  | [] => Some s
  | a :: rest =>
      match body a s with
      | Some s' => for_of rest body s'
      | None => None
      end
  end.

Definition directions : list Direction := [North; South; East; West].

(** [`${direction}:${keyB}`] *)
Definition cacheKey (direction : Direction) (keyB : string) : string :=
  Direction_name direction +:+ ":" +:+ keyB.

(** [cache.get(keyA)!.set(cacheKey, v)]: the inner map is updated in place;
    calling [set] on a missing inner map throws. *)
Definition set_inner (keyA cacheKey : string) (v : bool)
  (cache : gmap string (gmap string bool))
  : option (gmap string (gmap string bool)) :=
  match cache !! keyA with
  | Some inner => Some (<[keyA := <[cacheKey := v]> inner]> cache)
  | None => None
  end.

(** Precompute adjacency relationships for performance. *)
Definition precomputeAdjacencies (this : instance) : option instance :=
  let db := blockDatabase this in
  match
    for_of db (fun blockA cache =>
      let keyA := BlockEdgeMatcher.getRotatedBlockId (id blockA) (rotation blockA) in
      let cache := <[keyA := ∅]> cache in
      for_of directions (fun direction cache =>
        for_of db (fun blockB cache =>
          let keyB := BlockEdgeMatcher.getRotatedBlockId (id blockB) (rotation blockB) in
          let cacheKey := cacheKey direction keyB in
          let canAdjacent := BlockEdgeMatcher.canBeAdjacent blockA blockB direction in
          set_inner keyA cacheKey canAdjacent cache) cache) cache)
      (adjacencyCache this)
  with
  | Some cache => Some {| blockDatabase := db; adjacencyCache := cache |}
  | None => None
  end.

(** [new WaveFunctionCollapse(blocks)] *)
Definition constructor (blocks : list BlockConfiguration) : option instance :=
  precomputeAdjacencies {| blockDatabase := blocks; adjacencyCache := ∅ |}.

Definition getOppositeDirection (direction : Direction) : Direction :=
  match direction with
  | North => South
  | South => North
  | East => West
  | West => East
  end.

(** [`${pos.x},${pos.y}`] *)
Definition neighborKey (p : Position) : string :=
  Number_toString (Int (x p)) +:+ "," +:+ Number_toString (Int (y p)).

Definition neighbors (position : Position) : list Neighbor :=
  [ {| pos := {| x := x position; y := JS.sub (y position) 1 |};
       direction := North |};
    {| pos := {| x := x position; y := JS.add (y position) 1 |};
       direction := South |};
    {| pos := {| x := JS.add (x position) 1; y := y position |};
       direction := East |};
    {| pos := {| x := JS.sub (x position) 1; y := y position |};
       direction := West |} ].

(** The filter callback of [getValidBlocks]: the loop over the neighbors,
    leaving with [false] at the first placed neighbor that rejects the
    candidate. *)
Fixpoint check_neighbors (ns : list Neighbor)
  (placedBlocks : gmap string BlockConfiguration)
  (candidateBlock : BlockConfiguration) : bool :=
  match ns with
  | [] => true
  | neighbor :: rest =>
      let neighborKey := neighborKey (pos neighbor) in
      match placedBlocks !! neighborKey with
      | Some neighborBlock =>
          let oppositeDirection := getOppositeDirection (direction neighbor) in
          if negb (BlockEdgeMatcher.canBeAdjacent neighborBlock candidateBlock
                     oppositeDirection)
          then false
          else check_neighbors rest placedBlocks candidateBlock
      | None => check_neighbors rest placedBlocks candidateBlock
      end
  end.

(** Get valid blocks for a position based on already placed neighbors. *)
Definition getValidBlocks (position : Position)
  (placedBlocks : gmap string BlockConfiguration)
  (allPossibleBlocks : list BlockConfiguration) : list BlockConfiguration :=
  let neighbors := neighbors position in
  List.filter (fun candidateBlock =>
                 check_neighbors neighbors placedBlocks candidateBlock)
              allPossibleBlocks.

End WaveFunctionCollapse.

Import BlockEdgeMatcher WaveFunctionCollapse.

(** ** function generateRotationVariants *)

(** The argument of [generateRotationVariants]: [{ id, heights }]. *)
Record BaseBlock : Type := {
  base_id : string;
  base_heights : string;
}.

(** Generate all rotation variants for a block: the original block, then the
    Z-axis rotations by 90, 180 and 270 degrees, each pushed at the end. *)
Definition generateRotationVariants (baseBlock : BaseBlock)
  : list BlockConfiguration :=
  let variants := [] in
  let variants :=
    variants ++ [ {| id := base_id baseBlock;
                     heights := base_heights baseBlock;
                     rotation := None |} ] in
  foldl (fun variants angle =>
           variants ++ [ {| id := base_id baseBlock;
                            heights := base_heights baseBlock;
                            rotation :=
                              Some {| axis := "z"; angle := Int angle |} |} ])
        variants [90; 180; 270].

(** ** Vocabulary of the statements *)

(** The character of a decimal digit. *)
Definition digit_char (d : Z) : ascii := ascii_of_N (Z.to_N (48 + d)).

(** The digit string that serialises a sequence of heights. *)
Definition grid_string (hs : list Z) : string :=
  String.string_of_list_ascii (digit_char <$> hs).

Definition is_digit (c : ascii) : Prop := 48 <= code c <= 57.

(** A well-formed 3x3 height grid: exactly nine decimal digits. *)
Definition HeightGrid (s : string) : Prop :=
  String.length s = 9%nat /\ Forall is_digit (split_chars s).

(** The integers a JavaScript number holds exactly
    ([Number.isSafeInteger]). *)
Definition safe_integer (a : Z) : Prop := - 2 ^ 53 < a < 2 ^ 53.

(** A position whose two coordinates are safe integers. *)
Definition safe_position (p : Position) : Prop :=
  safe_integer (x p) /\ safe_integer (y p).

(** The identifier has no separator character. *)
Definition no_separator (s : string) : Prop := "_"%char ∉ split_chars s.

(** The composite key of a catalog entry. *)
Definition composite_key (b : BlockConfiguration) : string :=
  getRotatedBlockId (id b) (rotation b).

(** The side of a block's effective edges. *)
Definition effective_edge (b : BlockConfiguration) (side : Direction)
  : list value :=
  edge (getEffectiveEdges b) side.

(** Edge patterns without [NaN]. *)
Definition numeric (e : EdgePattern) : Prop :=
  forall side, Forall (fun u => u ≠ Some NaN) (edge e side).

(** The placed block at a coordinate, if any. *)
Definition placed_at (placedBlocks : gmap string BlockConfiguration)
  (px py : Z) : option BlockConfiguration :=
  placedBlocks !! neighborKey {| x := px; y := py |}.

(** Every placed cardinal neighbor of [position] accepts the candidate on
    the side that faces [position]: the neighbor to the north on its south
    side, and so on. *)
Definition accepted_by_neighbors (position : Position)
  (placedBlocks : gmap string BlockConfiguration)
  (candidate : BlockConfiguration) : Prop :=
  (forall nb, placed_at placedBlocks (x position) (y position - 1) = Some nb ->
     canBeAdjacent nb candidate South = true)
  /\ (forall nb, placed_at placedBlocks (x position) (y position + 1) = Some nb ->
     canBeAdjacent nb candidate North = true)
  /\ (forall nb, placed_at placedBlocks (x position + 1) (y position) = Some nb ->
     canBeAdjacent nb candidate West = true)
  /\ (forall nb, placed_at placedBlocks (x position - 1) (y position) = Some nb ->
     canBeAdjacent nb candidate East = true).

(** No cardinal neighbor of [position] is placed. *)
Definition no_placed_neighbor (position : Position)
  (placedBlocks : gmap string BlockConfiguration) : Prop :=
  placed_at placedBlocks (x position) (y position - 1) = None
  /\ placed_at placedBlocks (x position) (y position + 1) = None
  /\ placed_at placedBlocks (x position + 1) (y position) = None
  /\ placed_at placedBlocks (x position - 1) (y position) = None.

#[global] Instance accepted_by_neighbors_dec position placedBlocks candidate :
  Decision (accepted_by_neighbors position placedBlocks candidate).
Proof.
  assert (Hside : forall (o : option BlockConfiguration) side,
            Decision (forall nb, o = Some nb ->
                        canBeAdjacent nb candidate side = true)).
  { intros [nb |] side.
    - destruct (canBeAdjacent nb candidate side) eqn:Hadj.
      + left. by intros ? [= <-].
      + right. intros Hall. specialize (Hall nb eq_refl). congruence.
    - left. discriminate. }
  unfold accepted_by_neighbors. repeat apply and_dec; apply Hside.
Defined.

(** The boolean the cache stores under (keyA, direction, keyB), if any:
    the entry [`${direction}:${keyB}`] of the inner map under [keyA]. *)
Definition cache_entry (cache : gmap string (gmap string bool))
  (keyA : string) (direction : Direction) (keyB : string) : option bool :=
  match cache !! keyA with
  | Some inner => inner !! cacheKey direction keyB
  | None => None
  end.

Definition blockA : BlockConfiguration :=
  {| id := "A"; heights := "123456789"; rotation := None |}.
Definition blockB : BlockConfiguration :=
  {| id := "B"; heights := "999999999"; rotation := None |}.

#[global] Instance Direction_eq_dec : EqDecision Direction.
Proof. solve_decision. Defined.

(** Where a direction points after a quarter turn about z: north to east,
    east to south, south to west, west to north. *)
Definition turned_z (d : Direction) : Direction :=
  match d with
  | North => East
  | East => South
  | South => West
  | West => North
  end.

(** Where a direction points after a flip about y (north and south swap) or
    about x (east and west swap). *)
Definition flipped_y (d : Direction) : Direction :=
  match d with
  | North => South
  | South => North
  | East => East
  | West => West
  end.

Definition flipped_x (d : Direction) : Direction :=
  match d with
  | North => North
  | South => South
  | East => West
  | West => East
  end.

(** The four edges of a pattern, one after the other. *)
Definition all_edges (e : EdgePattern) : list value :=
  north e ++ east e ++ south e ++ west e.

(** The grid string made of nine copies of one character. *)
Definition uniform_grid (c : ascii) : string :=
  String.string_of_list_ascii (replicate 9 c).

(** The grid indices that lie on the border: all but the centre, 4. *)
Definition border_indices : list nat := [0; 1; 2; 3; 5; 6; 7; 8]%nat.

(** The last catalog entry with a given composite key, if any. *)
Definition last_with_key (k : string) (db : list BlockConfiguration)
  : option BlockConfiguration :=
  last (filter (fun b => composite_key b = k) db).

(** A rotation as the identifier keeps it: a zero angle is no rotation. *)
Definition normal_rotation (r : option Rotation) : option Rotation :=
  match r with
  | Some r' => if number_strict_eq (angle r') (Int 0) then None else Some r'
  | None => None
  end.

(** A rotation of the data model: an axis among x, y, z and an integer
    angle. *)
Definition valid_rotation (r : option Rotation) : Prop :=
  match r with
  | Some r' =>
      (axis r' = "x" \/ axis r' = "y" \/ axis r' = "z")
      /\ exists a, angle r' = Int a
  | None => True
  end.

(** The candidates a placed block leaves, or all of them if none is placed. *)
Definition kept_by (placed : option BlockConfiguration) (side : Direction)
  (candidates : list BlockConfiguration) : list BlockConfiguration :=
  match placed with
  | Some neighborBlock => findValidAdjacents neighborBlock side candidates
  | None => candidates
  end.

(** The four cells next to a position. *)
Definition cardinal_neighbors (p : Position) : list Position :=
  [ {| x := x p; y := y p - 1 |}; {| x := x p; y := y p + 1 |};
    {| x := x p + 1; y := y p |}; {| x := x p - 1; y := y p |} ].

(** ** Edge extraction *)

Section Extraction.

Lemma Number1_digit_char d : 0 <= d <= 9 -> Number1 (digit_char d) = Int d.
Proof.
  intros Hd.
  assert (Hcases : d = 0 \/ d = 1 \/ d = 2 \/ d = 3 \/ d = 4 \/ d = 5 \/
                   d = 6 \/ d = 7 \/ d = 8 \/ d = 9) by lia.
  repeat (destruct Hcases as [-> | Hcases]; [reflexivity |]).
  by subst.
Qed.

Lemma Number1_is_digit c : is_digit c -> exists d, Number1 c = Int d.
Proof.
  unfold is_digit, Number1, digit_of. intros [Hlo Hhi].
  rewrite (proj2 (Z.leb_le _ _) Hlo), (proj2 (Z.leb_le _ _) Hhi). simpl.
  destruct (Z.ltb_spec (code c - 48) 10); [eauto | lia].
Qed.

(** C2: for a grid of nine digits h0..h8 laid out row-major, [extractEdges]
    gives north = [h0,h1,h2], east = [h2,h5,h8], south = [h8,h7,h6] and
    west = [h6,h3,h0]; the grid "123456789" gives north [1,2,3], east [3,6,9],
    south [9,8,7], west [7,4,1]. *)
Theorem extractEdges_layout (h0 h1 h2 h3 h4 h5 h6 h7 h8 : Z) :
  Forall (fun h => 0 <= h <= 9) [h0; h1; h2; h3; h4; h5; h6; h7; h8] ->
  extractEdges (grid_string [h0; h1; h2; h3; h4; h5; h6; h7; h8]) =
    {| north := [Some (Int h0); Some (Int h1); Some (Int h2)];
       east  := [Some (Int h2); Some (Int h5); Some (Int h8)];
       south := [Some (Int h8); Some (Int h7); Some (Int h6)];
       west  := [Some (Int h6); Some (Int h3); Some (Int h0)] |}
  /\ extractEdges "123456789" =
       {| north := [Some (Int 1); Some (Int 2); Some (Int 3)];
          east  := [Some (Int 3); Some (Int 6); Some (Int 9)];
          south := [Some (Int 9); Some (Int 8); Some (Int 7)];
          west  := [Some (Int 7); Some (Int 4); Some (Int 1)] |}.
Proof.
  intros Hall. split; [| reflexivity].
  repeat (apply Forall_cons in Hall as [? Hall]).
  unfold extractEdges, grid_string, split_chars.
  rewrite String.list_ascii_of_string_of_list_ascii. simpl.
  by rewrite !Number1_digit_char.
Qed.

Lemma extractEdges_layout_witness :
  extractEdges (grid_string [1; 2; 3; 4; 5; 6; 7; 8; 9]) =
    {| north := [Some (Int 1); Some (Int 2); Some (Int 3)];
       east  := [Some (Int 3); Some (Int 6); Some (Int 9)];
       south := [Some (Int 9); Some (Int 8); Some (Int 7)];
       west  := [Some (Int 7); Some (Int 4); Some (Int 1)] |}.
Proof.
  refine (proj1 (extractEdges_layout 1 2 3 4 5 6 7 8 9 _)).
  repeat constructor; lia.
Defined.

End Extraction.

(** ** Rotation of edge patterns *)

Section Rotation.

Implicit Types (e : EdgePattern) (a : Z).

Lemma z_body_eq e :
  z_body e = {| north := reverse (west e); east := north e;
                south := reverse (east e); west := south e |}.
Proof. reflexivity. Qed.

Lemma y_body_eq e :
  y_body e = {| north := reverse (south e); east := reverse (east e);
                south := reverse (north e); west := reverse (west e) |}.
Proof. reflexivity. Qed.

Lemma x_body_eq e :
  x_body e = {| north := reverse (north e); east := reverse (west e);
                south := reverse (south e); west := reverse (east e) |}.
Proof. reflexivity. Qed.

Lemma z_body_four e : z_body (z_body (z_body (z_body e))) = e.
Proof.
  destruct e. rewrite !z_body_eq. simpl. by rewrite !reverse_involutive.
Qed.

Lemma y_body_twice e : y_body (y_body e) = e.
Proof.
  destruct e. rewrite !y_body_eq. simpl. by rewrite !reverse_involutive.
Qed.

Lemma x_body_twice e : x_body (x_body e) = e.
Proof.
  destruct e. rewrite !x_body_eq. simpl. by rewrite !reverse_involutive.
Qed.

(** The number of loop passes for an integer angle. *)
Lemma rotateEdges_z e a :
  rotateEdges e "z" (Int a) = Nat.iter (Z.to_nat (Z.rem (a / 90) 4)) z_body e.
Proof. reflexivity. Qed.

Lemma rotateEdges_y e a :
  rotateEdges e "y" (Int a) = Nat.iter (Z.to_nat (Z.rem (a / 90) 4)) y_body e.
Proof. reflexivity. Qed.

Lemma rotateEdges_x e a :
  rotateEdges e "x" (Int a) = Nat.iter (Z.to_nat (Z.rem (a / 90) 4)) x_body e.
Proof. reflexivity. Qed.

Lemma rotateEdges_other e ax (n : number) :
  ax ≠ "x" -> ax ≠ "y" -> ax ≠ "z" -> rotateEdges e ax n = e.
Proof.
  intros Hx Hy Hz. unfold rotateEdges.
  by rewrite !(proj2 (String.eqb_neq _ _)).
Qed.

(** A negative angle gives a step count that is not positive: no pass runs. *)
Lemma rotateEdges_negative e ax a : a < 0 -> rotateEdges e ax (Int a) = e.
Proof.
  intros Ha.
  assert (Hq : a / 90 < 0) by (apply Z.div_lt_upper_bound; lia).
  assert (Hr : Z.rem (a / 90) 4 <= 0) by (apply Z.rem_nonpos; lia).
  unfold rotateEdges, floor_div_rem, for_lt.
  replace (Z.to_nat (Z.rem (a / 90) 4)) with 0%nat by lia.
  by repeat case_match.
Qed.

Lemma rotations_nonneg a :
  0 <= a -> Z.rem (a / 90) 4 = (a / 90) mod 4 /\ 0 <= (a / 90) mod 4 < 4.
Proof.
  intros Ha. split.
  - apply Z.rem_mod_nonneg; [apply Z.div_pos; lia | lia].
  - apply Z.mod_pos_bound. lia.
Qed.

(** C4: a 90 degree rotation followed by the 270 degree rotation about the
    same axis gives the edge set back, for each of the axes x, y and z. *)
Theorem rotateEdges_90_then_270 e :
  rotateEdges (rotateEdges e "x" (Int 90)) "x" (Int 270) = e
  /\ rotateEdges (rotateEdges e "y" (Int 90)) "y" (Int 270) = e
  /\ rotateEdges (rotateEdges e "z" (Int 90)) "z" (Int 270) = e.
Proof.
  rewrite !rotateEdges_x, !rotateEdges_y, !rotateEdges_z.
  change (Z.to_nat (Z.rem (90 / 90) 4)) with 1%nat.
  change (Z.to_nat (Z.rem (270 / 90) 4)) with 3%nat.
  simpl. by rewrite !x_body_twice, !y_body_twice, z_body_four.
Qed.

(** C10: the X and Y elementary steps are involutions: a 180 degree rotation
    about x or y gives the edge set back, so 90 and 270 degrees about x (or
    about y) give the same edges, and a block rotated by 180 degrees about x
    or y has the effective edges of the unrotated block. *)
Theorem rotateEdges_x_y_involutive e :
  rotateEdges e "x" (Int 180) = e
  /\ rotateEdges e "y" (Int 180) = e
  /\ rotateEdges e "x" (Int 90) = rotateEdges e "x" (Int 270)
  /\ rotateEdges e "y" (Int 90) = rotateEdges e "y" (Int 270)
  /\ (forall i h,
        getEffectiveEdges
          {| id := i; heights := h;
             rotation := Some {| axis := "x"; angle := Int 180 |} |} =
        getEffectiveEdges {| id := i; heights := h; rotation := None |})
  /\ (forall i h,
        getEffectiveEdges
          {| id := i; heights := h;
             rotation := Some {| axis := "y"; angle := Int 180 |} |} =
        getEffectiveEdges {| id := i; heights := h; rotation := None |}).
Proof.
  assert (Hx : forall e', rotateEdges e' "x" (Int 180) = e').
  { intros e'. rewrite rotateEdges_x.
    change (Z.to_nat (Z.rem (180 / 90) 4)) with 2%nat. apply x_body_twice. }
  assert (Hy : forall e', rotateEdges e' "y" (Int 180) = e').
  { intros e'. rewrite rotateEdges_y.
    change (Z.to_nat (Z.rem (180 / 90) 4)) with 2%nat. apply y_body_twice. }
  split; [apply Hx |]. split; [apply Hy |].
  rewrite !rotateEdges_x, !rotateEdges_y.
  change (Z.to_nat (Z.rem (90 / 90) 4)) with 1%nat.
  change (Z.to_nat (Z.rem (270 / 90) 4)) with 3%nat.
  simpl. rewrite x_body_twice, y_body_twice.
  do 2 (split; [done |]).
  split; intros i h; unfold getEffectiveEdges; simpl; [apply Hx | apply Hy].
Qed.

(** The angle is reduced for the angles of the data model, 0 and up. *)
Lemma rotateEdges_steps e ax a :
  0 <= a ->
  rotateEdges e ax (Int a) = rotateEdges e ax (Int (90 * ((a / 90) mod 4))).
Proof.
  intros Ha. destruct (rotations_nonneg a Ha) as [Hrem Hk].
  unfold rotateEdges, floor_div_rem. rewrite Hrem.
  replace (90 * ((a / 90) mod 4) / 90) with ((a / 90) mod 4)
    by (symmetry; rewrite Z.mul_comm; apply Z.div_mul; lia).
  by rewrite (Z.rem_small ((a / 90) mod 4) 4).
Qed.

(** C5 (as the code has it): for an angle that is not negative the step
    count is [floor(angle / 90) mod 4], one of 0, 1, 2, 3; that many
    elementary steps of the axis are applied, and the result is that of the
    normalised angle, one of 0, 90, 180, 270.  Full turns do not matter. *)
Theorem rotateEdges_normalizes_nonnegative e a :
  0 <= a -> safe_integer a ->
  let k := (a / 90) mod 4 in
  0 <= k < 4
  /\ rotateEdges e "x" (Int a) = Nat.iter (Z.to_nat k) x_body e
  /\ rotateEdges e "y" (Int a) = Nat.iter (Z.to_nat k) y_body e
  /\ rotateEdges e "z" (Int a) = Nat.iter (Z.to_nat k) z_body e
  /\ (forall ax, rotateEdges e ax (Int a) = rotateEdges e ax (Int (90 * k)))
  /\ (forall ax, rotateEdges e ax (Int (a + 360)) = rotateEdges e ax (Int a)).
Proof.
  intros Ha _ k. destruct (rotations_nonneg a Ha) as [Hrem Hk].
  rewrite rotateEdges_x, rotateEdges_y, rotateEdges_z, Hrem.
  repeat (split; [done |]). split.
  - intros ax. by apply rotateEdges_steps.
  - intros ax. rewrite (rotateEdges_steps e ax (a + 360)) by lia.
    rewrite (rotateEdges_steps e ax a) by lia.
    replace (a + 360) with (a + 4 * 90) by lia.
    rewrite Z.div_add by lia.
    replace (a / 90 + 4) with (a / 90 + 1 * 4) by lia.
    by rewrite Z.mod_add by lia.
Qed.

Lemma rotateEdges_normalizes_nonnegative_witness :
  rotateEdges (extractEdges "123456789") "z" (Int 450) =
  rotateEdges (extractEdges "123456789") "z" (Int 90).
Proof.
  refine (proj1 (proj2 (proj2 (proj2 (proj2
    (rotateEdges_normalizes_nonnegative (extractEdges "123456789") 450 _ _)))))
    "z").
  - lia.
  - unfold safe_integer. lia.
Defined.

(** C5 as stated fails: -90 degrees is not 270 degrees.  The remainder takes
    the sign of [floor(-90 / 90) = -1], the step count is -1 and no pass of
    the loop runs. *)
Lemma rotateEdges_minus_90_is_not_270 :
  rotateEdges (extractEdges "123456789") "z" (Int (-90)) =
    extractEdges "123456789"
  /\ rotateEdges (extractEdges "123456789") "z" (Int (-90)) <>
     rotateEdges (extractEdges "123456789") "z" (Int 270).
Proof. split; [reflexivity | discriminate]. Qed.

(** C6 as stated fails: an axis outside x, y, z with a nonzero angle returns
    the unrotated edges, and no error. *)
Lemma rotateEdges_unknown_axis_returns :
  rotateEdges_call (extractEdges "123456789") "w" (Int 90) =
    Returns (extractEdges "123456789")
  /\ rotateEdges_call (extractEdges "123456789") "w" (Int 90) <>
     Throws "InvalidAxisError".
Proof. split; [reflexivity | discriminate]. Qed.

(** C6 (as the code has it): with an axis that is none of x, y, z the call
    returns the edges it was given, whatever the angle. *)
Theorem rotateEdges_unknown_axis_is_identity e ax (n : number) :
  ax ≠ "x" -> ax ≠ "y" -> ax ≠ "z" ->
  rotateEdges_call e ax n = Returns e.
Proof.
  intros Hx Hy Hz. unfold rotateEdges_call.
  by rewrite rotateEdges_other.
Qed.

Lemma rotateEdges_unknown_axis_is_identity_witness :
  rotateEdges_call (extractEdges "123456789") "w" (Int 90) =
  Returns (extractEdges "123456789").
Proof.
  apply (rotateEdges_unknown_axis_is_identity
           (extractEdges "123456789") "w" (Int 90)); discriminate.
Defined.

End Rotation.

(** ** Adjacency of two blocks *)

Section Adjacency.

(** Decides [HeightGrid] on a literal grid. *)
Ltac concrete_HeightGrid :=
  split;
  [ reflexivity
  | repeat (apply List.Forall_cons; [vm_compute; split; discriminate |]);
    apply List.Forall_nil ].

Implicit Types (u v : value) (ea eb : list value) (A B : BlockConfiguration).

Lemma strict_eq_true u v : strict_eq u v = true <-> u = v /\ u ≠ Some NaN.
Proof.
  destruct u as [[p |] |], v as [[q |] |]; simpl;
    try (split; [discriminate | intros [? ?]; congruence]).
  - rewrite Z.eqb_eq. split; [intros -> | intros [[= ->] _]]; done.
  - done.
Qed.

Lemma strict_eq_sym u v : strict_eq u v = strict_eq v u.
Proof.
  destruct u as [[p |] |], v as [[q |] |]; simpl; try done. apply Z.eqb_sym.
Qed.

(** What the [every] callback checks, index by index. *)
Lemma every_eq_from_true ea : forall index eb,
  every_eq_from index ea eb = true <->
  forall k u, ea !! k = Some u ->
    strict_eq u (mjoin (eb !! (index + k)%nat)) = true.
Proof.
  induction ea as [| h rest IH]; intros index eb; simpl.
  - split; [intros _ k u Hk; by rewrite lookup_nil in Hk | done].
  - rewrite andb_true_iff, IH. split.
    + intros [Hh Hrest] [| k] u Hk; simpl in Hk.
      * injection Hk as <-. by rewrite Nat.add_0_r.
      * rewrite <- Nat.add_succ_comm. by apply Hrest.
    + intros Hall. split.
      * specialize (Hall 0%nat h eq_refl). by rewrite Nat.add_0_r in Hall.
      * intros k u Hk. rewrite Nat.add_succ_comm. by apply Hall.
Qed.

(** The test at the end of [canBeAdjacent], as the pairs it compares. *)
Lemma edges_test_pairs ea eb :
  (length ea =? length eb)%nat && every_eq_from 0 ea eb = true <->
  length ea = length eb /\
  forall i u v, ea !! i = Some u -> eb !! i = Some v -> strict_eq u v = true.
Proof.
  rewrite andb_true_iff, Nat.eqb_eq, every_eq_from_true. split.
  - intros [Hlen Hall]. split; [done |]. intros i u v Hu Hv.
    specialize (Hall i u Hu). change (0 + i)%nat with i in Hall.
    by rewrite Hv in Hall.
  - intros [Hlen Hall]. split; [done |]. intros k u Hu.
    change (0 + k)%nat with k.
    destruct (eb !! k) as [v |] eqn:Hv; simpl; [by eapply Hall |].
    apply lookup_lt_Some in Hu. apply lookup_ge_None in Hv. lia.
Qed.

(** The same test, as an equality of the two edges. *)
Lemma edges_test_equal ea eb :
  (length ea =? length eb)%nat && every_eq_from 0 ea eb = true <->
  ea = eb /\ Forall (fun u => u ≠ Some NaN) ea.
Proof.
  rewrite edges_test_pairs. split.
  - intros [Hlen Hall]. split.
    + apply list_eq_same_length with (length ea); [done | done |].
      intros i u v _ Hu Hv. by apply (strict_eq_true u v), Hall with i.
    + apply Forall_lookup. intros i u Hu.
      destruct (lookup_lt_is_Some_2 eb i) as [v Hv].
      { rewrite <- Hlen. by eapply lookup_lt_Some. }
      by apply (strict_eq_true u v), Hall with i.
  - intros [<- Hok]. split; [done |]. intros i u v Hu Hv.
    rewrite Hu in Hv. injection Hv as <-. apply strict_eq_true. split; [done |].
    by apply (proj1 (Forall_lookup _ _) Hok i).
Qed.

Lemma edges_test_sym ea eb :
  (length ea =? length eb)%nat && every_eq_from 0 ea eb =
  (length eb =? length ea)%nat && every_eq_from 0 eb ea.
Proof.
  apply eq_true_iff_eq. rewrite !edges_test_equal. split.
  - by intros [<- Hok].
  - by intros [<- Hok].
Qed.

Lemma numeric_intro n e s w :
  Forall (fun u => u ≠ Some NaN) n -> Forall (fun u => u ≠ Some NaN) e ->
  Forall (fun u => u ≠ Some NaN) s -> Forall (fun u => u ≠ Some NaN) w ->
  numeric {| north := n; east := e; south := s; west := w |}.
Proof. intros ? ? ? ? []; done. Qed.

Lemma numeric_z_body e : numeric e -> numeric (z_body e).
Proof.
  intros He. rewrite z_body_eq.
  apply numeric_intro; rewrite ?Forall_reverse;
    [apply (He West) | apply (He North) | apply (He East) | apply (He South)].
Qed.

Lemma numeric_y_body e : numeric e -> numeric (y_body e).
Proof.
  intros He. rewrite y_body_eq.
  apply numeric_intro; rewrite ?Forall_reverse;
    [apply (He South) | apply (He East) | apply (He North) | apply (He West)].
Qed.

Lemma numeric_x_body e : numeric e -> numeric (x_body e).
Proof.
  intros He. rewrite x_body_eq.
  apply numeric_intro; rewrite ?Forall_reverse;
    [apply (He North) | apply (He West) | apply (He South) | apply (He East)].
Qed.

Lemma numeric_iter (body : EdgePattern -> EdgePattern) n e :
  (forall e', numeric e' -> numeric (body e')) ->
  numeric e -> numeric (Nat.iter n body e).
Proof. intros Hbody He. induction n as [| n IH]; simpl; auto. Qed.

Lemma numeric_rotateEdges e ax (n : number) :
  numeric e -> numeric (rotateEdges e ax n).
Proof.
  intros He. unfold rotateEdges, floor_div_rem, for_lt.
  destruct n as [a |]; repeat case_match; try done;
    apply numeric_iter;
    auto using numeric_z_body, numeric_y_body, numeric_x_body.
Qed.

Lemma numeric_extractEdges s :
  Forall is_digit (split_chars s) -> numeric (extractEdges s).
Proof.
  intros Hs.
  assert (Hh : forall i, (Number1 <$> split_chars s) !! i ≠ Some NaN).
  { intros i Hi. apply list_lookup_fmap_Some in Hi as (c & Hn & Hc).
    apply (proj1 (Forall_lookup _ _) Hs) in Hc.
    destruct (Number1_is_digit c Hc) as [d Hd]. congruence. }
  unfold extractEdges. apply numeric_intro; repeat constructor; apply Hh.
Qed.

Lemma numeric_getEffectiveEdges A :
  HeightGrid (heights A) -> numeric (getEffectiveEdges A).
Proof.
  intros [_ Hdigits]. unfold getEffectiveEdges.
  destruct (rotation A) as [r |]; [| by apply numeric_extractEdges].
  case_match; [by apply numeric_extractEdges |].
  by apply numeric_rotateEdges, numeric_extractEdges.
Qed.

Lemma canBeAdjacent_unfold A B d :
  canBeAdjacent A B d =
  (length (effective_edge A d)
   =? length (effective_edge B (getOppositeDirection d)))%nat
  && every_eq_from 0 (effective_edge A d)
       (effective_edge B (getOppositeDirection d)).
Proof. by destruct d. Qed.

(** C1: [canBeAdjacent A B d] holds exactly when A's effective edge on side
    [d] and B's effective edge on the opposite side have the same length and
    equal heights at every index (compared with [===]; for well-formed
    digit grids that is plain equality of the values).  Block "123456789"
    cannot have block "999999999" to its east: [3,6,9] against [9,9,9]. *)
Theorem canBeAdjacent_iff_edges_match A B d :
  let ea := effective_edge A d in
  let eb := effective_edge B (getOppositeDirection d) in
  (canBeAdjacent A B d = true <->
     length ea = length eb /\
     forall i u v, ea !! i = Some u -> eb !! i = Some v -> strict_eq u v = true)
  /\ (HeightGrid (heights A) -> HeightGrid (heights B) ->
      (canBeAdjacent A B d = true <->
         length ea = length eb /\
         forall i u v, ea !! i = Some u -> eb !! i = Some v -> u = v))
  /\ getOppositeDirection East = West
  /\ effective_edge blockA East = [Some (Int 3); Some (Int 6); Some (Int 9)]
  /\ effective_edge blockB West = [Some (Int 9); Some (Int 9); Some (Int 9)]
  /\ canBeAdjacent blockA blockB East = false.
Proof.
  intros ea eb. rewrite canBeAdjacent_unfold. fold ea eb.
  split; [apply edges_test_pairs |].
  split; [| by repeat split].
  intros HA HB. rewrite edges_test_pairs.
  pose proof (numeric_getEffectiveEdges A HA d) as Hea. fold ea in Hea.
  split; intros [Hlen Hall]; (split; [done |]); intros i u v Hu Hv.
  - by apply (strict_eq_true u v), Hall with i.
  - apply strict_eq_true. split; [by apply Hall with i |].
    by apply (proj1 (Forall_lookup _ _) Hea i).
Qed.

Lemma canBeAdjacent_iff_edges_match_witness :
  canBeAdjacent blockB blockB East = true <->
  length (effective_edge blockB East) = length (effective_edge blockB West) /\
  forall i u v, effective_edge blockB East !! i = Some u ->
                effective_edge blockB West !! i = Some v -> u = v.
Proof.
  refine (proj1 (proj2 (canBeAdjacent_iff_edges_match blockB blockB East)) _ _);
    concrete_HeightGrid.
Defined.

(** C7: swapping the two blocks and taking the opposite direction gives the
    same answer, for each of the four directions. *)
Theorem canBeAdjacent_swap_opposite A B :
  canBeAdjacent A B North = canBeAdjacent B A South
  /\ canBeAdjacent A B South = canBeAdjacent B A North
  /\ canBeAdjacent A B East = canBeAdjacent B A West
  /\ canBeAdjacent A B West = canBeAdjacent B A East.
Proof.
  rewrite !canBeAdjacent_unfold. simpl. repeat split; apply edges_test_sym.
Qed.

End Adjacency.

(** ** The constraint query *)

Section ConstraintQuery.

Implicit Types (placed : gmap string BlockConfiguration)
  (C : BlockConfiguration) (cands : list BlockConfiguration).

(** The loop over the neighbors accepts a candidate exactly when each placed
    neighbor of the list does. *)
Lemma check_neighbors_true ns placed C :
  check_neighbors ns placed C = true <->
  forall n nb, n ∈ ns -> placed !! neighborKey (pos n) = Some nb ->
    canBeAdjacent nb C (getOppositeDirection (direction n)) = true.
Proof.
  induction ns as [| n rest IH]; simpl.
  - split; [intros _ n nb Hn; by apply elem_of_nil in Hn | done].
  - destruct (placed !! neighborKey (pos n)) as [nb |] eqn:Hnb.
    + destruct (canBeAdjacent nb C (getOppositeDirection (direction n)))
        eqn:Hadj; simpl.
      * rewrite IH. split.
        -- intros Hrest n' nb' [-> | Hin]%elem_of_cons Hnb'; [congruence |].
           by apply Hrest.
        -- intros Hall n' nb' Hin. apply Hall. by right.
      * split; [discriminate |]. intros Hall.
        rewrite <- Hadj. apply Hall; [by left | done].
    + rewrite IH. split.
      * intros Hrest n' nb' [-> | Hin]%elem_of_cons Hnb'; [congruence |].
        by apply Hrest.
      * intros Hall n' nb' Hin. apply Hall. by right.
Qed.

(** Up to magnitude 2^53 an integer is a double: nothing is rounded. *)
Lemma round_to_double_exact z : Z.abs z <= 2 ^ 53 -> round_to_double z = z.
Proof.
  intros Hz. unfold round_to_double.
  destruct (Z.ltb_spec (Z.abs z) (2 ^ 53)) as [| Hge]; [done |].
  assert (Hcases : z = 2 ^ 53 \/ z = - 2 ^ 53) by lia.
  destruct Hcases as [-> | ->]; reflexivity.
Qed.

(** On a safe integer, one more and one less are exact. *)
Lemma add_sub_one_exact a :
  safe_integer a -> JS.add a 1 = a + 1 /\ JS.sub a 1 = a - 1.
Proof.
  unfold safe_integer, JS.add, JS.sub. intros Ha.
  split; apply round_to_double_exact; lia.
Qed.

(** At a safe position the four cells looked at are the four cardinal
    cells. *)
Lemma neighbors_safe position :
  safe_position position ->
  neighbors position =
  [ {| pos := {| x := x position; y := y position - 1 |}; direction := North |};
    {| pos := {| x := x position; y := y position + 1 |}; direction := South |};
    {| pos := {| x := x position + 1; y := y position |}; direction := East |};
    {| pos := {| x := x position - 1; y := y position |}; direction := West |} ].
Proof.
  intros [Hx Hy]. unfold neighbors.
  destruct (add_sub_one_exact _ Hx) as [-> ->].
  by destruct (add_sub_one_exact _ Hy) as [-> ->].
Qed.

Lemma check_neighbors_accepted position placed C :
  safe_position position ->
  check_neighbors (neighbors position) placed C = true <->
  accepted_by_neighbors position placed C.
Proof.
  intros Hsafe. rewrite (neighbors_safe position Hsafe).
  rewrite check_neighbors_true. unfold accepted_by_neighbors, placed_at. split.
  - intros Hall. repeat split; intros nb Hnb.
    + apply (Hall {| pos := {| x := x position; y := y position - 1 |};
                     direction := North |} nb); [set_solver | done].
    + apply (Hall {| pos := {| x := x position; y := y position + 1 |};
                     direction := South |} nb); [set_solver | done].
    + apply (Hall {| pos := {| x := x position + 1; y := y position |};
                     direction := East |} nb); [set_solver | done].
    + apply (Hall {| pos := {| x := x position - 1; y := y position |};
                     direction := West |} nb); [set_solver | done].
  - intros (Hn & Hs & He & Hw) n nb Hin Hnb.
    repeat (apply elem_of_cons in Hin as [-> | Hin]); simpl in *; auto.
    by apply elem_of_nil in Hin.
Qed.

(** A callback that decides [P] filters like [P]. *)
Lemma filter_callback {A} (f : A -> bool) (P : A -> Prop)
    `{!forall a, Decision (P a)} (l : list A) :
  (forall a, f a = true <-> P a) -> List.filter f l = filter P l.
Proof.
  intros Hf. induction l as [| a l IH]; [done |].
  simpl. rewrite filter_cons, IH.
  destruct (f a) eqn:Hfa; case_decide as HP; try done.
  - apply Hf in Hfa. done.
  - apply Hf in HP. congruence.
Qed.

(** C3 as stated fails past the safe integers: at x = 2^53 the sum x + 1 is
    the double 2^53 again, so the cell looked at to the east is the position
    itself.  With a block placed there and on no cardinal cell, the candidate
    that every placed cardinal neighbor accepts (there is none) is
    rejected. *)
Lemma getValidBlocks_rounds_past_2_53 :
  let position := {| x := 2 ^ 53; y := 0 |} in
  let placed : gmap string BlockConfiguration :=
    {[ neighborKey position := blockA ]} in
  no_placed_neighbor position placed
  /\ accepted_by_neighbors position placed blockB
  /\ getValidBlocks position placed [blockB] = []
  /\ getValidBlocks position placed [blockB] <> [blockB].
Proof.
  intros position placed.
  assert (Hnone : no_placed_neighbor position placed)
    by (repeat split; vm_compute; reflexivity).
  split; [done |]. split.
  - destruct Hnone as (Hn & Hs & He & Hw). unfold accepted_by_neighbors.
    rewrite Hn, Hs, He, Hw. by repeat split.
  - split; [vm_compute; reflexivity | vm_compute; discriminate].
Qed.

(** C3 (as the code has it): at a position whose coordinates are safe
    integers, [getValidBlocks] returns exactly the candidates that every
    placed cardinal neighbor accepts on the side facing the position, in the
    order of the candidate list; with no placed neighbor it returns them
    all. *)
Theorem getValidBlocks_filters position placed cands :
  safe_position position ->
  getValidBlocks position placed cands =
    filter (accepted_by_neighbors position placed) cands
  /\ (forall C, C ∈ getValidBlocks position placed cands <->
        C ∈ cands /\ accepted_by_neighbors position placed C)
  /\ sublist (getValidBlocks position placed cands) cands
  /\ (no_placed_neighbor position placed ->
        getValidBlocks position placed cands = cands).
Proof.
  intros Hsafe.
  assert (Heq : getValidBlocks position placed cands =
                filter (accepted_by_neighbors position placed) cands).
  { unfold getValidBlocks. apply filter_callback.
    intros C. by apply check_neighbors_accepted. }
  rewrite Heq. split; [done |]. split; [| split].
  - intros C. rewrite list_elem_of_filter. tauto.
  - apply sublist_filter.
  - intros (Hn & Hs & He & Hw). clear Heq.
    induction cands as [| C rest IH]; [done |].
    rewrite filter_cons_True, IH; [done |].
    unfold accepted_by_neighbors. rewrite Hn, Hs, He, Hw. by repeat split.
Qed.

Lemma getValidBlocks_filters_witness :
  getValidBlocks {| x := 0; y := 0 |} ∅ [blockA; blockB] = [blockA; blockB].
Proof.
  refine (proj2 (proj2 (proj2
    (getValidBlocks_filters {| x := 0; y := 0 |} ∅ [blockA; blockB] _))) _).
  - split; unfold safe_integer; simpl; lia.
  - repeat split.
Defined.

End ConstraintQuery.

(** ** Identifiers of rotated blocks *)

Section RotatedIds.

(** Evaluates the digit value of a literal character in the goal. *)
Ltac eval_digit :=
  match goal with
  | |- context [digit_of ?r ?c] =>
      let v := eval vm_compute in (digit_of r c) in
      change (digit_of r c) with v; cbv beta iota
  end.

(** *** Reading back a printed integer *)

Lemma read_digits_acc_pos d : forall acc : positive,
  read_digits_acc 10 (Z.pos acc) (NilEmpty.string_of_uint d) =
  Z.pos (Pos.of_uint_acc d acc).
Proof.
  induction d; intros acc;
    cbn [NilEmpty.string_of_uint read_digits_acc Pos.of_uint_acc];
    [reflexivity | ..]; eval_digit; rewrite <- IHd; f_equal; lia.
Qed.

Lemma read_digits_acc_zero d :
  read_digits_acc 10 0 (NilEmpty.string_of_uint d) = Z.of_N (Pos.of_uint d).
Proof.
  induction d; cbn [NilEmpty.string_of_uint read_digits_acc Pos.of_uint];
    [reflexivity | ..]; eval_digit;
    [exact IHd | ..]; cbn [Z.of_N]; rewrite <- read_digits_acc_pos; f_equal.
Qed.

Lemma read_digits_uint d :
  d ≠ Decimal.Nil ->
  read_digits 10 (NilEmpty.string_of_uint d) = Some (Z.of_N (Pos.of_uint d)).
Proof.
  intros Hd. rewrite <- read_digits_acc_zero.
  destruct d; [done | ..];
    cbn [NilEmpty.string_of_uint read_digits read_digits_acc];
    repeat eval_digit; reflexivity.
Qed.

(** A printed numeral starts with a digit and has no [0x] prefix: nothing is
    trimmed, no sign is read and the radix is 10. *)
Lemma decimal_prefix d :
  d ≠ Decimal.Nil ->
  let s := NilEmpty.string_of_uint d in
  trim_start s = s /\ read_sign s = (1, s) /\ read_radix s = (10, s)
  /\ trim_start (String "-" s) = String "-" s.
Proof.
  intros Hd.
  destruct d as [| d' | d' | d' | d' | d' | d' | d' | d' | d' | d']; [done | ..].
  1: destruct d'.
  all: by repeat split.
Qed.

Lemma parse_integer_uint d :
  d ≠ Decimal.Nil ->
  parse_integer (NilEmpty.string_of_uint d) = Some (Z.of_N (Pos.of_uint d))
  /\ parse_integer (String "-" (NilEmpty.string_of_uint d)) =
     Some (- Z.of_N (Pos.of_uint d)).
Proof.
  intros Hd. destruct (decimal_prefix d Hd) as (Htrim & Hsign & Hradix & Hneg).
  unfold parse_integer. rewrite Htrim, Hneg, Hsign. cbn [read_sign].
  rewrite Hradix, read_digits_uint by done.
  split; f_equal; lia.
Qed.

(** The integer read back from a printed integer is that integer. *)
Lemma parse_integer_Number_toString a :
  parse_integer (Number_toString (Int a)) = Some a.
Proof.
  destruct a as [| p | p]; [reflexivity | ..];
    cbn [Number_toString Z.to_int NilZero.string_of_int];
    pose proof (DecimalPos.Unsigned.to_uint_nonnil p) as Hp;
    destruct (parse_integer_uint _ Hp) as [Hpos Hneg];
    rewrite DecimalPos.Unsigned.of_to in Hpos, Hneg;
    unfold NilZero.string_of_uint; destruct (Pos.to_uint p); done.
Qed.

(** A safe integer is a double: [parseInt] gives it back unrounded. *)
Lemma parseInt_Number_toString a :
  safe_integer a -> parseInt (Number_toString (Int a)) = Int a.
Proof.
  intros Ha. unfold parseInt. rewrite parse_integer_Number_toString.
  rewrite round_to_double_exact; [done |]. unfold safe_integer in Ha. lia.
Qed.

(** *** Splitting at the separator *)

Lemma no_separator_uint d : no_separator (NilEmpty.string_of_uint d).
Proof.
  unfold no_separator, split_chars.
  induction d; simpl; [apply not_elem_of_nil | ..];
    (apply not_elem_of_cons; split; [discriminate | done]).
Qed.

Lemma no_separator_Number_toString a : no_separator (Number_toString (Int a)).
Proof.
  assert (Hz : forall d, no_separator (NilZero.string_of_uint d)).
  { intros d. unfold NilZero.string_of_uint.
    destruct d; try apply no_separator_uint.
    unfold no_separator. simpl. apply not_elem_of_cons.
    split; [discriminate | apply not_elem_of_nil]. }
  unfold Number_toString, NilZero.string_of_int.
  destruct (Z.to_int a) as [d | d]; [apply Hz |].
  unfold no_separator. simpl. apply not_elem_of_cons.
  split; [discriminate | apply Hz].
Qed.

Lemma split_char_no_separator s :
  no_separator s -> split_char "_" s = (s, []).
Proof.
  unfold no_separator, split_chars.
  induction s as [| c s IH]; simpl; [done |].
  intros [Hc Hs]%not_elem_of_cons. rewrite (IH Hs).
  by rewrite (proj2 (Ascii.eqb_neq c "_")) by congruence.
Qed.

Lemma split_char_append b r :
  no_separator b ->
  split_char "_" (b +:+ String "_" r) =
  (b, fst (split_char "_" r) :: snd (split_char "_" r)).
Proof.
  unfold no_separator, split_chars.
  induction b as [| c b IH]; simpl.
  - intros _. by destruct (split_char "_" r).
  - intros [Hc Hb]%not_elem_of_cons. rewrite (IH Hb).
    by rewrite (proj2 (Ascii.eqb_neq c "_")) by congruence.
Qed.

Lemma parse_encoded b c a :
  no_separator b -> c ≠ "_"%char -> a ≠ 0 -> safe_integer a ->
  parseRotatedBlockId
    (getRotatedBlockId b
       (Some {| axis := String c EmptyString; angle := Int a |})) =
  {| baseId := b;
     parsed_rotation :=
       Some {| axis := String c EmptyString; angle := Int a |} |}.
Proof.
  intros Hb Hc Ha Hsafe. unfold getRotatedBlockId, parseRotatedBlockId.
  cbn [angle axis number_strict_eq].
  rewrite (proj2 (Z.eqb_neq a 0) Ha).
  change ("_" +:+ String c EmptyString +:+ Number_toString (Int a))
    with (String "_" (String c (Number_toString (Int a)))).
  rewrite split_char_append by done.
  rewrite split_char_no_separator.
  - cbn [fst snd charAt0 slice1]. by rewrite parseInt_Number_toString.
  - unfold no_separator, split_chars. simpl. apply not_elem_of_cons.
    split; [congruence | apply no_separator_Number_toString].
Qed.

(** C9 as stated fails at the angle 0: the identifier of a block rotated by
    0 degrees is the bare identifier, which decodes to no rotation. *)
Lemma roundtrip_fails_at_angle_zero :
  parseRotatedBlockId
    (getRotatedBlockId "wall" (Some {| axis := "z"; angle := Int 0 |})) =
    {| baseId := "wall"; parsed_rotation := None |}
  /\ parseRotatedBlockId
       (getRotatedBlockId "wall" (Some {| axis := "z"; angle := Int 0 |})) <>
     {| baseId := "wall";
        parsed_rotation := Some {| axis := "z"; angle := Int 0 |} |}.
Proof. split; [reflexivity | discriminate]. Qed.

(** C9 (as the code has it): for an identifier without the separator and an
    axis among x, y, z, decoding the encoding of a rotation with a nonzero
    angle gives the identifier and the rotation back; with the angle 0 or
    with no rotation it gives the identifier and no rotation. *)
Theorem rotated_id_roundtrip b ax a :
  no_separator b -> ax = "x" \/ ax = "y" \/ ax = "z" -> safe_integer a ->
  (a ≠ 0 ->
     parseRotatedBlockId
       (getRotatedBlockId b (Some {| axis := ax; angle := Int a |})) =
     {| baseId := b;
        parsed_rotation := Some {| axis := ax; angle := Int a |} |})
  /\ parseRotatedBlockId
       (getRotatedBlockId b (Some {| axis := ax; angle := Int 0 |})) =
     {| baseId := b; parsed_rotation := None |}
  /\ parseRotatedBlockId (getRotatedBlockId b None) =
     {| baseId := b; parsed_rotation := None |}.
Proof.
  intros Hb Hax Hsafe.
  assert (Hbare : parseRotatedBlockId b =
                  {| baseId := b; parsed_rotation := None |}).
  { unfold parseRotatedBlockId. by rewrite split_char_no_separator. }
  split; [| by split].
  intros Ha. destruct Hax as [-> | [-> | ->]]; by apply parse_encoded.
Qed.

Lemma rotated_id_roundtrip_witness :
  parseRotatedBlockId
    (getRotatedBlockId "wall" (Some {| axis := "z"; angle := Int 270 |})) =
  {| baseId := "wall";
     parsed_rotation := Some {| axis := "z"; angle := Int 270 |} |}.
Proof.
  refine (proj1 (rotated_id_roundtrip "wall" "z" 270 _ _ _) _).
  - unfold no_separator. vm_compute. intros H.
    repeat (apply elem_of_cons in H as [H | H]; [discriminate |]).
    by apply elem_of_nil in H.
  - right. right. reflexivity.
  - unfold safe_integer. lia.
  - discriminate.
Defined.

End RotatedIds.

(** ** The adjacency cache *)

Section AdjacencyCache.

Implicit Types (cache : gmap string (gmap string bool))
  (inner : gmap string bool) (db : list BlockConfiguration).

(** A loop whose body never throws runs to its end. *)
Lemma for_of_total {S A} (l : list A) (body : A -> S -> option S)
    (step : A -> S -> S) :
  (forall a s, body a s = Some (step a s)) ->
  forall s, for_of l body s = Some (foldl (fun s a => step a s) s l).
Proof.
  intros Hbody. induction l as [| a l IH]; intros s; simpl; [done |].
  by rewrite Hbody, IH.
Qed.

(** A loop of insertions keeps the last value written under each key. *)
Lemma foldl_insert_other {A} (f : A -> string) (g : A -> bool) (l : list A) :
  forall inner k, k ∉ f <$> l ->
    foldl (fun m a => <[f a := g a]> m) inner l !! k = inner !! k.
Proof.
  induction l as [| a l IH]; intros inner k Hk; simpl; [done |].
  rewrite fmap_cons in Hk. apply not_elem_of_cons in Hk as [Hne Hk].
  rewrite IH by done. by rewrite lookup_insert_ne.
Qed.

Lemma foldl_insert_member {A} (f : A -> string) (g : A -> bool) (l : list A) :
  forall inner a, NoDup (f <$> l) -> a ∈ l ->
    foldl (fun m a => <[f a := g a]> m) inner l !! f a = Some (g a).
Proof.
  induction l as [| a' l IH]; intros inner a Hnd Ha; simpl.
  - by apply elem_of_nil in Ha.
  - rewrite fmap_cons in Hnd. apply NoDup_cons in Hnd as [Hfresh Hnd].
    apply elem_of_cons in Ha as [-> | Ha]; [| by apply IH].
    rewrite foldl_insert_other by done. apply lookup_insert_eq.
Qed.

Lemma cacheKey_inj d d' k k' : cacheKey d k = cacheKey d' k' -> d = d' /\ k = k'.
Proof. destruct d, d'; intros [=]; by subst. Qed.

(** The loop over [blockB] writes into the inner map under [keyA]. *)
Lemma inner_loop (f : BlockConfiguration -> string)
    (g : BlockConfiguration -> bool) keyA db :
  forall cache inner, cache !! keyA = Some inner ->
    for_of db (fun blockB c => set_inner keyA (f blockB) (g blockB) c) cache =
    Some (<[keyA := foldl (fun m b => <[f b := g b]> m) inner db]> cache).
Proof.
  induction db as [| b db IH]; intros cache inner Hin; simpl.
  - by rewrite insert_id.
  - unfold set_inner at 1. rewrite Hin.
    rewrite (IH _ (<[f b := g b]> inner)) by apply lookup_insert_eq.
    by rewrite insert_insert_eq.
Qed.

(** The inner map that the passes for [blockA] build, from an empty map. *)
Lemma direction_loop blockA' keyA db (ds : list Direction) :
  forall cache inner, cache !! keyA = Some inner ->
    for_of ds (fun direction c =>
      for_of db (fun blockB c =>
        set_inner keyA (cacheKey direction (composite_key blockB))
          (canBeAdjacent blockA' blockB direction) c) c) cache =
    Some (<[keyA :=
            foldl (fun m d =>
                     foldl (fun m b =>
                              <[cacheKey d (composite_key b) :=
                                  canBeAdjacent blockA' b d]> m) m db)
                  inner ds]> cache).
Proof.
  induction ds as [| d ds IH]; intros cache inner Hin; simpl.
  - by rewrite insert_id.
  - rewrite (inner_loop (fun b => cacheKey d (composite_key b))
               (fun b => canBeAdjacent blockA' b d) keyA db cache inner Hin).
    erewrite IH by apply lookup_insert_eq.
    by rewrite insert_insert_eq.
Qed.

(** The finished inner map of [blockA'] holds every pair it was built from. *)
Lemma inner_map_entry blockA' db B d :
  NoDup (composite_key <$> db) -> B ∈ db ->
  foldl (fun m d =>
           foldl (fun m b =>
                    <[cacheKey d (composite_key b) :=
                        canBeAdjacent blockA' b d]> m) m db)
        (∅ : gmap string bool) directions
  !! cacheKey d (composite_key B) = Some (canBeAdjacent blockA' B d).
Proof.
  intros Hnd HB.
  assert (Hother : forall d' inner, d' ≠ d ->
            foldl (fun m b => <[cacheKey d' (composite_key b) :=
                                  canBeAdjacent blockA' b d']> m) inner db
            !! cacheKey d (composite_key B) =
            inner !! cacheKey d (composite_key B)).
  { intros d' inner Hd'.
    apply (foldl_insert_other (fun b => cacheKey d' (composite_key b))
             (fun b => canBeAdjacent blockA' b d')).
    intros (b & Hb & _)%list_elem_of_fmap.
    by apply cacheKey_inj in Hb as [-> _]. }
  assert (Hsame : forall inner,
            foldl (fun m b => <[cacheKey d (composite_key b) :=
                                  canBeAdjacent blockA' b d]> m) inner db
            !! cacheKey d (composite_key B) =
            Some (canBeAdjacent blockA' B d)).
  { intros inner.
    apply (foldl_insert_member (fun b => cacheKey d (composite_key b))
             (fun b => canBeAdjacent blockA' b d)); [| done].
    rewrite (list_fmap_compose composite_key (cacheKey d)).
    apply NoDup_fmap_2; [| done].
    intros k k' Hk. by apply cacheKey_inj in Hk as [_ ->]. }
  unfold directions. simpl.
  destruct d; rewrite ?Hother by done; rewrite Hsame; done.
Qed.

(** The whole construction, as one insertion per catalog entry. *)
Lemma outer_loop db (l : list BlockConfiguration) :
  forall cache,
    for_of l (fun blockA' cache =>
      let keyA := getRotatedBlockId (id blockA') (rotation blockA') in
      let cache := <[keyA := ∅]> cache in
      for_of directions (fun direction cache =>
        for_of db (fun blockB cache =>
          let keyB := getRotatedBlockId (id blockB) (rotation blockB) in
          let cacheKey := cacheKey direction keyB in
          let canAdjacent := canBeAdjacent blockA' blockB direction in
          set_inner keyA cacheKey canAdjacent cache) cache) cache) cache =
    Some (foldl (fun c a =>
                   <[composite_key a :=
                       foldl (fun m d =>
                                foldl (fun m b =>
                                         <[cacheKey d (composite_key b) :=
                                             canBeAdjacent a b d]> m) m db)
                             (∅ : gmap string bool) directions]> c) cache l).
Proof.
  apply (for_of_total l _
           (fun a c =>
              <[composite_key a :=
                  foldl (fun m d =>
                           foldl (fun m b =>
                                    <[cacheKey d (composite_key b) :=
                                        canBeAdjacent a b d]> m) m db)
                        (∅ : gmap string bool) directions]> c)).
  intros a c. etransitivity.
  - apply (direction_loop a (composite_key a) db directions
             (<[composite_key a := ∅]> c) ∅), lookup_insert_eq.
  - by rewrite insert_insert_eq.
Qed.

Lemma outer_map_entry {V} (h : BlockConfiguration -> V) db A :
  forall (cache : gmap string V),
    NoDup (composite_key <$> db) -> A ∈ db ->
    foldl (fun c a => <[composite_key a := h a]> c) cache db
    !! composite_key A = Some (h A).
Proof.
  induction db as [| a db IH]; intros cache Hnd HA; simpl.
  - by apply elem_of_nil in HA.
  - rewrite fmap_cons in Hnd. apply NoDup_cons in Hnd as [Hfresh Hnd].
    apply elem_of_cons in HA as [-> | HA]; [| by apply IH].
    clear IH. revert cache.
    induction db as [| b db IH]; intros cache; simpl.
    + apply lookup_insert_eq.
    + rewrite fmap_cons in Hfresh, Hnd.
      apply not_elem_of_cons in Hfresh as [Hne Hfresh].
      apply NoDup_cons in Hnd as [_ Hnd].
      rewrite (insert_insert_ne cache) by done. by apply IH.
Qed.

(** C8: building the cache over a catalog with pairwise distinct composite
    keys succeeds, and the cache then stores, under (key A, d, key B), the
    value of [canBeAdjacent A B d], for all entries A and B of the catalog
    and every direction d. *)
Theorem cache_holds_every_pair (catalog : list BlockConfiguration) :
  NoDup (composite_key <$> catalog) ->
  exists this,
    constructor catalog = Some this
    /\ blockDatabase this = catalog
    /\ forall A B d, A ∈ catalog -> B ∈ catalog ->
         cache_entry (adjacencyCache this) (composite_key A) d (composite_key B)
         = Some (canBeAdjacent A B d).
Proof.
  intros Hnd. unfold constructor, precomputeAdjacencies.
  cbn [blockDatabase adjacencyCache].
  rewrite outer_loop. eexists. split; [done |]. split; [done |].
  intros A B d HA HB. unfold cache_entry. cbn [adjacencyCache].
  rewrite (outer_map_entry _ catalog A ∅ Hnd HA).
  by apply inner_map_entry.
Qed.

Lemma cache_holds_every_pair_witness :
  exists this,
    constructor [blockA; blockB] = Some this
    /\ blockDatabase this = [blockA; blockB]
    /\ forall A B d, A ∈ [blockA; blockB] -> B ∈ [blockA; blockB] ->
         cache_entry (adjacencyCache this) (composite_key A) d (composite_key B)
         = Some (canBeAdjacent A B d).
Proof.
  apply (cache_holds_every_pair [blockA; blockB]).
  apply NoDup_cons. split.
  - intros H. apply elem_of_cons in H as [H | H]; [discriminate |].
    by apply elem_of_nil in H.
  - apply NoDup_cons. split; [apply not_elem_of_nil | apply NoDup_nil_2].
Defined.

End AdjacencyCache.

(** ** Scenarios *)

Section Scenarios.

(** An angle of 0 leaves the edges as they are, whatever the axis. *)
Lemma rotateEdges_zero e ax : rotateEdges e ax (Int 0) = e.
Proof. unfold rotateEdges. simpl. by repeat case_match. Qed.

(** Four quarter turns about z come back to the start. *)
Lemma rotateEdges_z_full_cycle e :
  Nat.iter 4 (fun e' => rotateEdges e' "z" (Int 90)) e = e.
Proof. simpl. rewrite !rotateEdges_z. apply z_body_four. Qed.

(** The corners are shared by the two edges that meet there. *)
Lemma extractEdges_corners s :
  let e := extractEdges s in
  north e !! 0%nat = west e !! 2%nat /\ north e !! 2%nat = east e !! 0%nat
  /\ south e !! 0%nat = east e !! 2%nat /\ south e !! 2%nat = west e !! 0%nat.
Proof. by repeat split. Qed.

(** A uniform grid has the edge [5,5,5] on every side, however rotated. *)
Lemma uniform_grid_invariant ax (n : number) side :
  edge (rotateEdges (extractEdges "555555555") ax n) side =
  [Some (Int 5); Some (Int 5); Some (Int 5)].
Proof.
  assert (Hinv : forall body : EdgePattern -> EdgePattern,
            body (extractEdges "555555555") = extractEdges "555555555" ->
            forall k, Nat.iter k body (extractEdges "555555555") =
                      extractEdges "555555555").
  { intros body Hbody k. induction k as [| k IH]; simpl; [done |].
    by rewrite IH. }
  assert (Hrot : rotateEdges (extractEdges "555555555") ax n =
                 extractEdges "555555555").
  { unfold rotateEdges, floor_div_rem, for_lt.
    destruct n; repeat case_match; try done; by apply Hinv. }
  rewrite Hrot. by destruct side.
Qed.

(** One placed neighbor to the north, a candidate that fits under it and one
    that does not: only the first is kept. *)
Lemma getValidBlocks_north_neighbor :
  let fits := {| id := "fits"; heights := "987000000"; rotation := None |} in
  getValidBlocks {| x := 0; y := 0 |} {[ "0,-1" := blockA ]} [blockB; fits] =
  [fits].
Proof. vm_compute. reflexivity. Qed.

(** The identifiers of the rotation variants of a block. *)
Lemma getRotatedBlockId_examples :
  getRotatedBlockId "wall" None = "wall"
  /\ getRotatedBlockId "wall" (Some {| axis := "z"; angle := Int 0 |}) = "wall"
  /\ getRotatedBlockId "wall" (Some {| axis := "z"; angle := Int 90 |}) =
     "wall_z90"
  /\ getRotatedBlockId "wall" (Some {| axis := "x"; angle := Int 270 |}) =
     "wall_x270".
Proof. by repeat split. Qed.

End Scenarios.

(** ** Further properties of the rotation *)

Section RotationAlgebra.

Implicit Types (e : EdgePattern) (a : Z).

Lemma iter_four_periods (body : EdgePattern -> EdgePattern) e (q : nat) :
  (forall e', body (body (body (body e'))) = e') ->
  Nat.iter (4 * q) body e = e.
Proof.
  intros H4. induction q as [| q IH]; [done |].
  replace (4 * S q)%nat with (4 + 4 * q)%nat by lia.
  rewrite Nat.iter_add, IH. simpl. apply H4.
Qed.

(** With a body of period four, the remainder of the step count is as good
    as the count. *)
Lemma iter_rem_four (body : EdgePattern -> EdgePattern) e k :
  (forall e', body (body (body (body e'))) = e') -> 0 <= k ->
  Nat.iter (Z.to_nat (Z.rem k 4)) body e = Nat.iter (Z.to_nat k) body e.
Proof.
  intros H4 Hk. rewrite Z.rem_mod_nonneg by lia.
  pose proof (Z.div_mod k 4 ltac:(lia)) as Hdiv.
  pose proof (Z.mod_pos_bound k 4 ltac:(lia)) as Hmod.
  assert (0 <= k / 4) by (apply Z.div_pos; lia).
  replace (Z.to_nat k)
    with (Z.to_nat (k mod 4) + 4 * Z.to_nat (k / 4))%nat by lia.
  by rewrite Nat.iter_add, iter_four_periods.
Qed.

Lemma x_body_four e : x_body (x_body (x_body (x_body e))) = e.
Proof. by rewrite !x_body_twice. Qed.

Lemma y_body_four e : y_body (y_body (y_body (y_body e))) = e.
Proof. by rewrite !y_body_twice. Qed.

(** The passes of a quarter-turn count [k], for any axis string. *)
Lemma rotateEdges_quarter_turns e ax k :
  0 <= k ->
  rotateEdges e ax (Int (90 * k)) =
  if String.eqb ax "z" then Nat.iter (Z.to_nat k) z_body e
  else if String.eqb ax "y" then Nat.iter (Z.to_nat k) y_body e
  else if String.eqb ax "x" then Nat.iter (Z.to_nat k) x_body e
  else e.
Proof.
  intros Hk. unfold rotateEdges, floor_div_rem, for_lt.
  replace (90 * k / 90) with k
    by (symmetry; rewrite Z.mul_comm; apply Z.div_mul; lia).
  repeat case_match; try done; apply iter_rem_four;
    auto using z_body_four, y_body_four, x_body_four.
Qed.

(** Rotations about one axis add up: [i] quarter turns and then [j] quarter
    turns are [i + j] quarter turns. *)
Theorem rotateEdges_compose e ax i j :
  0 <= i -> 0 <= j ->
  rotateEdges (rotateEdges e ax (Int (90 * i))) ax (Int (90 * j)) =
  rotateEdges e ax (Int (90 * (i + j))).
Proof.
  intros Hi Hj. rewrite !rotateEdges_quarter_turns by lia.
  replace (Z.to_nat (i + j)) with (Z.to_nat j + Z.to_nat i)%nat by lia.
  repeat case_match; try done; by rewrite Nat.iter_add.
Qed.

Lemma rotateEdges_compose_witness :
  rotateEdges (rotateEdges (extractEdges "123456789") "z" (Int (90 * 3)))
    "z" (Int (90 * 2)) =
  rotateEdges (extractEdges "123456789") "z" (Int (90 * (3 + 2))).
Proof.
  apply (rotateEdges_compose (extractEdges "123456789") "z" 3 2); lia.
Defined.

(** An angle below 90, every negative angle included, and the angle [NaN]
    leave the edges as they are, whatever the axis. *)
Theorem rotateEdges_below_quarter_turn e ax :
  (forall a, a < 90 -> rotateEdges e ax (Int a) = e)
  /\ rotateEdges e ax NaN = e.
Proof.
  split.
  - intros a Ha. destruct (Z.lt_ge_cases a 0) as [Hneg | Hpos].
    + by apply rotateEdges_negative.
    + unfold rotateEdges, floor_div_rem, for_lt.
      rewrite (Z.div_small a 90) by lia. simpl. by repeat case_match.
  - unfold rotateEdges. simpl. by repeat case_match.
Qed.

Lemma rotateEdges_below_quarter_turn_witness :
  rotateEdges (extractEdges "123456789") "z" (Int (-180)) =
  extractEdges "123456789".
Proof.
  apply (proj1 (rotateEdges_below_quarter_turn
                  (extractEdges "123456789") "z") (-180)). lia.
Defined.

Lemma all_edges_z_body e : all_edges (z_body e) ≡ₚ all_edges e.
Proof.
  destruct e as [n ea s w]. rewrite z_body_eq. unfold all_edges. simpl.
  rewrite !reverse_Permutation. solve_Permutation.
Qed.

Lemma all_edges_y_body e : all_edges (y_body e) ≡ₚ all_edges e.
Proof.
  destruct e as [n ea s w]. rewrite y_body_eq. unfold all_edges. simpl.
  rewrite !reverse_Permutation. solve_Permutation.
Qed.

Lemma all_edges_x_body e : all_edges (x_body e) ≡ₚ all_edges e.
Proof.
  destruct e as [n ea s w]. rewrite x_body_eq. unfold all_edges. simpl.
  rewrite !reverse_Permutation. solve_Permutation.
Qed.

Lemma all_edges_iter (body : EdgePattern -> EdgePattern) k e :
  (forall e', all_edges (body e') ≡ₚ all_edges e') ->
  all_edges (Nat.iter k body e) ≡ₚ all_edges e.
Proof.
  intros Hbody. induction k as [| k IH]; simpl; [done |].
  by rewrite Hbody.
Qed.

(** A rotation only moves heights around: the heights on the four edges
    after a rotation are those before it, in another order. *)
Theorem rotateEdges_permutes_heights e ax (n : number) :
  all_edges (rotateEdges e ax n) ≡ₚ all_edges e.
Proof.
  unfold rotateEdges, floor_div_rem, for_lt.
  destruct n; repeat case_match; try done; apply all_edges_iter;
    auto using all_edges_z_body, all_edges_y_body, all_edges_x_body.
Qed.

End RotationAlgebra.

(** ** The shape of edge patterns *)

Section EdgeShape.

Implicit Types (e : EdgePattern) (A B : BlockConfiguration).

(** A property of single edges that reversal keeps is kept by a rotation. *)
Lemma rotateEdges_keeps (P : list value -> Prop) e ax (n : number) :
  (forall l, P l -> P (reverse l)) ->
  (forall side, P (edge e side)) ->
  forall side, P (edge (rotateEdges e ax n) side).
Proof.
  intros Hrev.
  assert (Hz : forall e', (forall side, P (edge e' side)) ->
                          forall side, P (edge (z_body e') side)).
  { intros e' He' []; rewrite z_body_eq; simpl.
    - apply Hrev, (He' West).
    - apply Hrev, (He' East).
    - apply (He' North).
    - apply (He' South). }
  assert (Hy : forall e', (forall side, P (edge e' side)) ->
                          forall side, P (edge (y_body e') side)).
  { intros e' He' []; rewrite y_body_eq; simpl; apply Hrev;
      [apply (He' South) | apply (He' North) | apply (He' East)
       | apply (He' West)]. }
  assert (Hx : forall e', (forall side, P (edge e' side)) ->
                          forall side, P (edge (x_body e') side)).
  { intros e' He' []; rewrite x_body_eq; simpl; apply Hrev;
      [apply (He' North) | apply (He' South) | apply (He' West)
       | apply (He' East)]. }
  assert (Hiter : forall (body : EdgePattern -> EdgePattern) k e',
            (forall e'', (forall side, P (edge e'' side)) ->
                         forall side, P (edge (body e'') side)) ->
            (forall side, P (edge e' side)) ->
            forall side, P (edge (Nat.iter k body e') side)).
  { intros body k e' Hbody He'. induction k as [| k IH]; simpl; auto. }
  intros He. unfold rotateEdges, floor_div_rem, for_lt.
  destruct n; repeat case_match; try done; by apply Hiter.
Qed.

(** Every effective edge has three slots, whatever the height string (short,
    long or not made of digits) and whatever the rotation; so the length
    test of [canBeAdjacent] always passes. *)
Theorem effective_edges_have_three_slots A B d :
  length (effective_edge A d) = 3%nat
  /\ canBeAdjacent A B d =
     every_eq_from 0 (effective_edge A d)
       (effective_edge B (getOppositeDirection d)).
Proof.
  assert (Hlen : forall C side, length (effective_edge C side) = 3%nat).
  { intros C side. unfold effective_edge, getEffectiveEdges.
    assert (Hbase : forall side',
              length (edge (extractEdges (heights C)) side') = 3%nat)
      by (by intros []).
    destruct (rotation C) as [r |]; [| apply Hbase].
    case_match; [apply Hbase |].
    apply (rotateEdges_keeps (fun l => length l = 3%nat)); [| done].
    intros l Hl. by rewrite length_reverse. }
  split; [apply Hlen |].
  rewrite canBeAdjacent_unfold, !Hlen. done.
Qed.

Lemma extractEdges_grid_string (h0 h1 h2 h3 h4 h5 h6 h7 h8 : Z) :
  Forall (fun h => 0 <= h <= 9) [h0; h1; h2; h3; h4; h5; h6; h7; h8] ->
  extractEdges (grid_string [h0; h1; h2; h3; h4; h5; h6; h7; h8]) =
    {| north := [Some (Int h0); Some (Int h1); Some (Int h2)];
       east  := [Some (Int h2); Some (Int h5); Some (Int h8)];
       south := [Some (Int h8); Some (Int h7); Some (Int h6)];
       west  := [Some (Int h6); Some (Int h3); Some (Int h0)] |}.
Proof.
  intros Hall. repeat (apply Forall_cons in Hall as [? Hall]).
  unfold extractEdges, grid_string, split_chars.
  rewrite String.list_ascii_of_string_of_list_ascii. simpl.
  by rewrite !Number1_digit_char.
Qed.

(** A quarter turn about z does not keep the corners shared: the rotated
    edges of a nine-digit grid are the edges of some grid only when the
    grid's two left corners are equal and its two right corners are
    equal. *)
Theorem z_rotation_is_a_grid_iff (h0 h1 h2 h3 h4 h5 h6 h7 h8 : Z) :
  Forall (fun h => 0 <= h <= 9) [h0; h1; h2; h3; h4; h5; h6; h7; h8] ->
  (exists s, extractEdges s =
             rotateEdges
               (extractEdges (grid_string [h0; h1; h2; h3; h4; h5; h6; h7; h8]))
               "z" (Int 90))
  <-> h0 = h6 /\ h2 = h8.
Proof.
  intros Hall. rewrite (extractEdges_grid_string _ _ _ _ _ _ _ _ _ Hall).
  rewrite rotateEdges_z.
  change (Z.to_nat (Z.rem (90 / 90) 4)) with 1%nat.
  simpl. rewrite z_body_eq. simpl. split.
  - intros [s Hs]. unfold extractEdges in Hs.
    injection Hs as Hn0 Hn1 Hn2 He0 He1 He2 Hs0 Hs1 Hs2 Hw0 Hw1 Hw2.
    split; congruence.
  - intros [-> ->].
    exists (grid_string [h6; h3; h6; h7; 0; h1; h8; h5; h8]).
    repeat (apply Forall_cons in Hall as [? Hall]).
    rewrite extractEdges_grid_string; [done |].
    repeat (apply List.Forall_cons; [lia |]). apply List.Forall_nil.
Qed.

Lemma z_rotation_is_a_grid_iff_witness :
  (exists s, extractEdges s =
             rotateEdges
               (extractEdges (grid_string [1; 2; 3; 4; 5; 6; 7; 8; 9]))
               "z" (Int 90))
  <-> 1 = 7 /\ 3 = 9.
Proof.
  apply (z_rotation_is_a_grid_iff 1 2 3 4 5 6 7 8 9).
  repeat (apply List.Forall_cons; [lia |]). apply List.Forall_nil.
Defined.

(** Only the eight border cells are read: the centre cell and anything past
    the ninth character change neither the edges nor any adjacency. *)
Theorem extractEdges_reads_border_only (s t : string) :
  (forall i, i ∈ border_indices -> split_chars s !! i = split_chars t !! i) ->
  extractEdges s = extractEdges t
  /\ forall i r B d,
       canBeAdjacent {| id := i; heights := s; rotation := r |} B d =
       canBeAdjacent {| id := i; heights := t; rotation := r |} B d.
Proof.
  intros Hagree.
  assert (Hedges : extractEdges s = extractEdges t).
  { unfold extractEdges. rewrite !list_lookup_fmap.
    rewrite !Hagree by (unfold border_indices; set_solver). done. }
  split; [done |]. intros i r B d.
  rewrite !canBeAdjacent_unfold. unfold effective_edge, getEffectiveEdges.
  simpl. by rewrite Hedges.
Qed.

Lemma extractEdges_reads_border_only_witness :
  extractEdges "123456789" = extractEdges "123406789xyz".
Proof.
  refine (proj1 (extractEdges_reads_border_only "123456789" "123406789xyz" _)).
  intros i Hi. unfold border_indices in Hi.
  repeat (apply elem_of_cons in Hi as [-> | Hi]; [reflexivity |]).
  by apply elem_of_nil in Hi.
Defined.

Lemma rotateEdges_fixed e ax (n : number) :
  z_body e = e -> y_body e = e -> x_body e = e -> rotateEdges e ax n = e.
Proof.
  intros Hz Hy Hx.
  assert (Hiter : forall (body : EdgePattern -> EdgePattern) k,
            body e = e -> Nat.iter k body e = e).
  { intros body k Hbody. induction k as [| k IH]; simpl; [done |].
    by rewrite IH. }
  unfold rotateEdges, floor_div_rem, for_lt.
  destruct n; repeat case_match; try done; by apply Hiter.
Qed.

(** A grid of nine equal digits looks the same under every rotation, and
    two blocks with that grid fit together in every direction, however
    each of them is rotated. *)
Theorem uniform_blocks_always_fit (c : ascii) A B d :
  is_digit c ->
  heights A = uniform_grid c -> heights B = uniform_grid c ->
  (forall ax n, rotateEdges (extractEdges (uniform_grid c)) ax n =
                extractEdges (uniform_grid c))
  /\ canBeAdjacent A B d = true.
Proof.
  intros Hc HA HB.
  assert (Hrot : forall ax n,
            rotateEdges (extractEdges (uniform_grid c)) ax n =
            extractEdges (uniform_grid c))
    by (intros ax n; by apply rotateEdges_fixed).
  split; [done |].
  assert (Heff : forall C side, heights C = uniform_grid c ->
            effective_edge C side =
            [Some (Number1 c); Some (Number1 c); Some (Number1 c)]).
  { intros C side HC. unfold effective_edge, getEffectiveEdges. rewrite HC.
    destruct (rotation C) as [r |]; [| by destruct side].
    case_match; [by destruct side |]. rewrite Hrot. by destruct side. }
  rewrite canBeAdjacent_unfold, !Heff by done.
  destruct (Number1_is_digit c Hc) as [v ->]. simpl.
  by rewrite Z.eqb_refl.
Qed.

Lemma uniform_blocks_always_fit_witness :
  canBeAdjacent
    {| id := "a"; heights := "555555555";
       rotation := Some {| axis := "z"; angle := Int 90 |} |}
    {| id := "b"; heights := "555555555";
       rotation := Some {| axis := "x"; angle := Int 270 |} |} North = true.
Proof.
  refine (proj2 (uniform_blocks_always_fit "5" _ _ North _ _ _));
    [vm_compute; split; discriminate | reflexivity | reflexivity].
Defined.

End EdgeShape.

(** ** Further properties of adjacency and of the constraint query *)

Section AdjacencyQueries.

Implicit Types (A B C : BlockConfiguration) (l : list BlockConfiguration)
  (placed : gmap string BlockConfiguration) (p q : Position).

Lemma canBeAdjacent_opposite A B d :
  canBeAdjacent A B d = canBeAdjacent B A (getOppositeDirection d).
Proof.
  rewrite !canBeAdjacent_unfold. destruct d; simpl; apply edges_test_sym.
Qed.

(** Two blocks fit exactly when the two facing edges are the same list and
    hold no [NaN]: an edge that has a [NaN] (from a character that is not a
    digit) fits nothing, not even an identical edge. *)
Theorem canBeAdjacent_equal_without_NaN A B d :
  (canBeAdjacent A B d = true <->
     effective_edge A d = effective_edge B (getOppositeDirection d)
     /\ Some NaN ∉ effective_edge A d)
  /\ (Some NaN ∈ effective_edge A d -> canBeAdjacent A B d = false).
Proof.
  assert (Hiff : canBeAdjacent A B d = true <->
            effective_edge A d = effective_edge B (getOppositeDirection d)
            /\ Some NaN ∉ effective_edge A d).
  { rewrite canBeAdjacent_unfold, edges_test_equal, Forall_forall.
    split; intros [Heq Hok]; (split; [done |]).
    - intros Hin. by apply (Hok _ Hin).
    - intros u Hu ->. done. }
  split; [done |]. intros Hin.
  apply not_true_iff_false. intros Hadj.
  by apply Hiff in Hadj as [_ Hno].
Qed.

Lemma canBeAdjacent_equal_without_NaN_witness :
  canBeAdjacent
    {| id := "a"; heights := "12x456789"; rotation := None |}
    {| id := "a"; heights := "12x456789"; rotation := None |} East = false.
Proof.
  apply (proj2 (canBeAdjacent_equal_without_NaN
    {| id := "a"; heights := "12x456789"; rotation := None |}
    {| id := "a"; heights := "12x456789"; rotation := None |} East)).
  vm_compute. left.
Defined.

Lemma elem_of_List_filter {X} (f : X -> bool) (xs : list X) (a : X) :
  a ∈ List.filter f xs <-> a ∈ xs /\ f a = true.
Proof. rewrite !list_elem_of_In. apply List.filter_In. Qed.

(** [findValidAdjacents] is symmetric: B is found next to A in direction [d]
    exactly when A is found next to B in the opposite direction. *)
Theorem findValidAdjacents_symmetric A B d la lb :
  A ∈ la -> B ∈ lb ->
  (B ∈ findValidAdjacents A d lb <->
   A ∈ findValidAdjacents B (getOppositeDirection d) la).
Proof.
  intros HA HB. unfold findValidAdjacents.
  rewrite !elem_of_List_filter, (canBeAdjacent_opposite A B d). tauto.
Qed.

Lemma findValidAdjacents_symmetric_witness :
  blockA ∈ findValidAdjacents blockA East [blockA; blockB] <->
  blockA ∈ findValidAdjacents blockA West [blockA].
Proof.
  apply (findValidAdjacents_symmetric blockA blockA East [blockA]
           [blockA; blockB]); left.
Defined.

Lemma List_filter_andb {X} (f g : X -> bool) (xs : list X) :
  List.filter (fun a => f a && g a) xs = List.filter g (List.filter f xs).
Proof.
  induction xs as [| a xs IH]; simpl; [done |].
  destruct (f a); simpl; [destruct (g a) |]; by rewrite IH.
Qed.

Lemma List_filter_ext {X} (f g : X -> bool) (xs : list X) :
  (forall a, f a = g a) -> List.filter f xs = List.filter g xs.
Proof. intros Hfg. apply List.filter_ext. done. Qed.

Lemma kept_by_filter (o : option BlockConfiguration) side l :
  kept_by o side l =
  List.filter (fun C => match o with
                        | Some nb => canBeAdjacent nb C side
                        | None => true
                        end) l.
Proof.
  destruct o as [nb |]; simpl; [done |].
  induction l as [| C l IH]; simpl; [done |]. by rewrite <- IH.
Qed.

(** At a position whose coordinates are safe integers, the query is the
    chain of the four single-neighbor searches: each placed neighbor filters
    the candidates with [findValidAdjacents] on the side facing the position,
    a missing neighbor filters nothing. *)
Theorem getValidBlocks_chains_findValidAdjacents p placed l :
  safe_position p ->
  getValidBlocks p placed l =
  kept_by (placed_at placed (x p - 1) (y p)) East
    (kept_by (placed_at placed (x p + 1) (y p)) West
       (kept_by (placed_at placed (x p) (y p + 1)) North
          (kept_by (placed_at placed (x p) (y p - 1)) South l))).
Proof.
  intros Hsafe. rewrite !kept_by_filter, <- !List_filter_andb.
  unfold getValidBlocks. rewrite (neighbors_safe p Hsafe).
  apply List_filter_ext. intros C. unfold placed_at.
  cbn [check_neighbors pos direction getOppositeDirection].
  repeat match goal with
         | |- context [placed !! ?k] => destruct (placed !! k)
         end;
    repeat match goal with
           | |- context [canBeAdjacent ?a ?b ?c] =>
               destruct (canBeAdjacent a b c)
           end;
    reflexivity.
Qed.

Lemma getValidBlocks_chains_findValidAdjacents_witness :
  getValidBlocks {| x := 0; y := 0 |} {[ "0,-1" := blockA ]} [blockA; blockB] =
  kept_by (placed_at {[ "0,-1" := blockA ]} (0 - 1) 0) East
    (kept_by (placed_at {[ "0,-1" := blockA ]} (0 + 1) 0) West
       (kept_by (placed_at {[ "0,-1" := blockA ]} 0 (0 + 1)) North
          (kept_by (placed_at {[ "0,-1" := blockA ]} 0 (0 - 1)) South
             [blockA; blockB]))).
Proof.
  apply (getValidBlocks_chains_findValidAdjacents {| x := 0; y := 0 |}
           {[ "0,-1" := blockA ]} [blockA; blockB]).
  split; unfold safe_integer; simpl; lia.
Defined.

(** Candidates are judged one by one: the query distributes over
    concatenation, and asking again changes nothing. *)
Theorem getValidBlocks_pointwise p placed l1 l2 :
  getValidBlocks p placed (l1 ++ l2) =
    getValidBlocks p placed l1 ++ getValidBlocks p placed l2
  /\ getValidBlocks p placed (getValidBlocks p placed l1) =
     getValidBlocks p placed l1.
Proof.
  unfold getValidBlocks. split; [apply List.filter_app |].
  rewrite <- List_filter_andb. apply List_filter_ext.
  intros C. by destruct (check_neighbors _ _ _).
Qed.

(** Placing more blocks never lets in a new candidate. *)
Theorem getValidBlocks_antitone p placed placed' l :
  placed ⊆ placed' ->
  sublist (getValidBlocks p placed' l) (getValidBlocks p placed l).
Proof.
  intros Hsub. unfold getValidBlocks.
  induction l as [| C l IH]; cbn [List.filter]; [done |].
  destruct (check_neighbors (neighbors p) placed' C) eqn:Hnew.
  - assert (Hold : check_neighbors (neighbors p) placed C = true).
    { apply check_neighbors_true. intros n nb Hn Hnb.
      apply (proj1 (check_neighbors_true _ _ _) Hnew n nb Hn).
      by apply (lookup_weaken placed placed'). }
    rewrite Hold. by apply sublist_skip.
  - destruct (check_neighbors (neighbors p) placed C);
      [by apply sublist_cons | done].
Qed.

Lemma getValidBlocks_antitone_witness :
  sublist (getValidBlocks {| x := 0; y := 0 |} {[ "0,-1" := blockA ]}
             [blockA; blockB])
          (getValidBlocks {| x := 0; y := 0 |} ∅ [blockA; blockB]).
Proof.
  apply (getValidBlocks_antitone {| x := 0; y := 0 |} ∅
           {[ "0,-1" := blockA ]} [blockA; blockB]).
  apply map_empty_subseteq.
Defined.

End AdjacencyQueries.

(** ** Keys of the placement grid *)

Section GridKeys.

Implicit Types (p q : Position) (placed : gmap string BlockConfiguration).

Lemma Number_toString_inj a b :
  Number_toString (Int a) = Number_toString (Int b) -> a = b.
Proof.
  intros Heq. apply (f_equal parse_integer) in Heq.
  rewrite !parse_integer_Number_toString in Heq. by injection Heq.
Qed.

Lemma comma_not_in_uint d : ","%char ∉ split_chars (NilEmpty.string_of_uint d).
Proof.
  unfold split_chars.
  induction d; simpl; [apply not_elem_of_nil | ..];
    (apply not_elem_of_cons; split; [discriminate | done]).
Qed.

Lemma comma_not_in_Number_toString a :
  ","%char ∉ split_chars (Number_toString (Int a)).
Proof.
  assert (Hz : forall d, ","%char ∉ split_chars (NilZero.string_of_uint d)).
  { intros d. unfold NilZero.string_of_uint.
    destruct d; try apply comma_not_in_uint.
    unfold split_chars. simpl. apply not_elem_of_cons.
    split; [discriminate | apply not_elem_of_nil]. }
  unfold Number_toString, NilZero.string_of_int.
  destruct (Z.to_int a) as [d | d]; [apply Hz |].
  unfold split_chars. simpl. apply not_elem_of_cons.
  split; [discriminate | apply Hz].
Qed.

(** Two texts cut at the first occurrence of a character agree part by
    part. *)
Lemma append_at_char_inj (c : ascii) (s1 : string) :
  forall s2 t1 t2,
    c ∉ split_chars s1 -> c ∉ split_chars s2 ->
    s1 +:+ String c t1 = s2 +:+ String c t2 -> s1 = s2 /\ t1 = t2.
Proof.
  unfold split_chars.
  induction s1 as [| c1 s1 IH]; intros [| c2 s2] t1 t2 H1 H2 Heq;
    simpl in *.
  - by injection Heq.
  - injection Heq as -> _. exfalso. apply H2. by left.
  - injection Heq as -> _. exfalso. apply H1. by left.
  - injection Heq as -> Heq.
    apply not_elem_of_cons in H1 as [_ H1].
    apply not_elem_of_cons in H2 as [_ H2].
    by destruct (IH s2 t1 t2 H1 H2 Heq) as [-> ->].
Qed.

Lemma neighborKey_inj p q : neighborKey p = neighborKey q -> p = q.
Proof.
  destruct p as [px py], q as [qx qy]. unfold neighborKey. simpl.
  intros Heq.
  apply (append_at_char_inj ","%char) in Heq as [Hx Hy];
    try apply comma_not_in_Number_toString.
  apply Number_toString_inj in Hx, Hy. by subst.
Qed.

(** Different cells never share a key of the placement map: the comma
    separates the two coordinates without ambiguity. *)
Theorem neighborKey_distinguishes_cells p q :
  neighborKey p = neighborKey q <-> p = q.
Proof. split; [apply neighborKey_inj | by intros ->]. Qed.

(** At a position whose coordinates are safe integers only the four
    cardinal cells are looked at: a block placed on any other cell (the
    position itself, a diagonal cell, a far cell) does not change the
    answer. *)
Theorem getValidBlocks_ignores_other_cells p q placed b l :
  safe_position p ->
  q ∉ cardinal_neighbors p ->
  getValidBlocks p (<[neighborKey q := b]> placed) l = getValidBlocks p placed l.
Proof.
  intros Hsafe Hq. unfold getValidBlocks. rewrite (neighbors_safe p Hsafe).
  apply List_filter_ext. intros C.
  cbn [check_neighbors pos direction].
  rewrite !lookup_insert_ne; [done | ..];
    intros ->%neighborKey_inj; apply Hq; unfold cardinal_neighbors;
    set_solver.
Qed.

Lemma getValidBlocks_ignores_other_cells_witness :
  getValidBlocks {| x := 0; y := 0 |}
    (<[neighborKey {| x := 0; y := 0 |} := blockA]> ∅) [blockA; blockB] =
  getValidBlocks {| x := 0; y := 0 |} ∅ [blockA; blockB].
Proof.
  apply (getValidBlocks_ignores_other_cells {| x := 0; y := 0 |}
           {| x := 0; y := 0 |} ∅ blockA [blockA; blockB]).
  - split; unfold safe_integer; simpl; lia.
  - unfold cardinal_neighbors. simpl. intros H.
    repeat (apply elem_of_cons in H as [H | H]; [discriminate |]).
    by apply elem_of_nil in H.
Defined.

(** The opposite of a direction is never the direction itself, taking it
    twice gives the direction back, and it is the side that
    [canBeAdjacent] pairs with the direction. *)
Theorem getOppositeDirection_pairs d :
  getOppositeDirection (getOppositeDirection d) = d
  /\ getOppositeDirection d ≠ d
  /\ edgeMatches d = (d, getOppositeDirection d).
Proof. by destruct d. Qed.

End GridKeys.

(** ** Further properties of the identifiers *)

Section IdentifierAlgebra.

Implicit Types (b r : string) (rot : option Rotation).

Lemma split_char_first_no_separator s : no_separator (fst (split_char "_" s)).
Proof.
  unfold no_separator, split_chars.
  induction s as [| c s IH]; simpl; [apply not_elem_of_nil |].
  destruct (split_char "_" s) as [hd tl]. simpl in IH.
  destruct (Ascii.eqb_spec c "_") as [-> | Hc]; simpl.
  - apply not_elem_of_nil.
  - apply not_elem_of_cons. split; [congruence | done].
Qed.

Lemma baseId_parse s : baseId (parseRotatedBlockId s) = fst (split_char "_" s).
Proof. unfold parseRotatedBlockId. by destruct (snd (split_char "_" s)). Qed.

(** Decoding reads nothing past a second separator. *)
Theorem parseRotatedBlockId_ignores_third_part b r junk :
  no_separator b -> no_separator r ->
  parseRotatedBlockId (b +:+ "_" +:+ r +:+ "_" +:+ junk) =
  parseRotatedBlockId (b +:+ "_" +:+ r).
Proof.
  intros Hb Hr. unfold parseRotatedBlockId.
  change (b +:+ "_" +:+ r +:+ "_" +:+ junk)
    with (b +:+ String "_" (r +:+ String "_" junk)).
  change (b +:+ "_" +:+ r) with (b +:+ String "_" r).
  rewrite !split_char_append by done.
  by rewrite (split_char_no_separator r Hr).
Qed.

Lemma parseRotatedBlockId_ignores_third_part_witness :
  parseRotatedBlockId ("wall" +:+ "_" +:+ "z90" +:+ "_" +:+ "x180") =
  parseRotatedBlockId ("wall" +:+ "_" +:+ "z90").
Proof.
  apply (parseRotatedBlockId_ignores_third_part "wall" "z90" "x180");
    unfold no_separator; vm_compute; intros H;
    repeat (apply elem_of_cons in H as [H | H]; [discriminate |]);
    by apply elem_of_nil in H.
Defined.

(** The decoded base identifier never has a separator in it; so an
    identifier that has one is not recovered by decoding, whatever the
    rotation. *)
Theorem baseId_with_separator_is_lost :
  (forall s, no_separator (baseId (parseRotatedBlockId s)))
  /\ (forall b rot, ~ no_separator b ->
        baseId (parseRotatedBlockId (getRotatedBlockId b rot)) ≠ b).
Proof.
  assert (Hno : forall s, no_separator (baseId (parseRotatedBlockId s))).
  { intros s. rewrite baseId_parse. apply split_char_first_no_separator. }
  split; [done |]. intros b rot Hb Heq. apply Hb. rewrite <- Heq. apply Hno.
Qed.

Lemma baseId_with_separator_is_lost_witness :
  baseId (parseRotatedBlockId
            (getRotatedBlockId "stone_wall"
               (Some {| axis := "z"; angle := Int 90 |}))) ≠ "stone_wall".
Proof.
  apply (proj2 baseId_with_separator_is_lost "stone_wall"
           (Some {| axis := "z"; angle := Int 90 |})).
  unfold no_separator. vm_compute. intros H. apply H.
  do 5 right. left.
Defined.

(** The two shapes of a composite key: the bare identifier, or the
    identifier, the separator, the axis letter and the printed angle. *)
Lemma getRotatedBlockId_shape b rot :
  valid_rotation rot ->
  (normal_rotation rot = None /\ getRotatedBlockId b rot = b)
  \/ (exists c a,
        normal_rotation rot =
          Some {| axis := String c EmptyString; angle := Int a |}
        /\ getRotatedBlockId b rot =
           b +:+ String "_" (String c (Number_toString (Int a)))).
Proof.
  intros Hrot. destruct rot as [[ax n] |]; [| by left].
  destruct Hrot as [Hax [a Ha]]. simpl in Hax, Ha. subst n.
  unfold normal_rotation, getRotatedBlockId. cbn [angle axis number_strict_eq].
  destruct (Z.eqb_spec a 0) as [-> | Hne]; [by left |].
  right. destruct Hax as [-> | [-> | ->]]; eauto.
Qed.

Lemma separator_in_append b r : ~ no_separator (b +:+ String "_" r).
Proof.
  unfold no_separator, split_chars. intros Hno. apply Hno. clear Hno.
  induction b as [| c b IH]; simpl; [by left | by right].
Qed.

Lemma getRotatedBlockId_keys b1 b2 rot1 rot2 :
  no_separator b1 -> no_separator b2 ->
  valid_rotation rot1 -> valid_rotation rot2 ->
  getRotatedBlockId b1 rot1 = getRotatedBlockId b2 rot2 ->
  b1 = b2 /\ normal_rotation rot1 = normal_rotation rot2.
Proof.
  intros Hb1 Hb2 Hr1 Hr2 Heq.
  destruct (getRotatedBlockId_shape b1 rot1 Hr1)
    as [[Hn1 Hk1] | (c1 & a1 & Hn1 & Hk1)];
    destruct (getRotatedBlockId_shape b2 rot2 Hr2)
      as [[Hn2 Hk2] | (c2 & a2 & Hn2 & Hk2)];
    rewrite Hk1, Hk2 in Heq; rewrite Hn1, Hn2.
  - done.
  - subst b1. by destruct (separator_in_append _ _ Hb1).
  - subst b2. by destruct (separator_in_append _ _ Hb2).
  - apply (append_at_char_inj "_"%char) in Heq as [-> Hrest]; [| done | done].
    injection Hrest as -> Hangle.
    by apply Number_toString_inj in Hangle as ->.
Qed.

(** Two blocks get the same composite key only when they have the same
    identifier and the same rotation, a zero angle counting as no
    rotation. *)
Theorem getRotatedBlockId_injective b1 b2 rot1 rot2 :
  no_separator b1 -> no_separator b2 ->
  valid_rotation rot1 -> valid_rotation rot2 ->
  (getRotatedBlockId b1 rot1 = getRotatedBlockId b2 rot2 <->
   b1 = b2 /\ normal_rotation rot1 = normal_rotation rot2).
Proof.
  intros Hb1 Hb2 Hr1 Hr2. split.
  - by apply getRotatedBlockId_keys.
  - intros [-> Hnorm]. unfold getRotatedBlockId, normal_rotation in *.
    destruct rot1 as [r1 |], rot2 as [r2 |]; repeat case_match;
      simplify_eq; done.
Qed.

Lemma getRotatedBlockId_injective_witness :
  getRotatedBlockId "wall" (Some {| axis := "z"; angle := Int 0 |}) =
  getRotatedBlockId "wall" None <->
  "wall" = "wall" /\
  normal_rotation (Some {| axis := "z"; angle := Int 0 |}) =
  normal_rotation None.
Proof.
  apply (getRotatedBlockId_injective "wall" "wall"
           (Some {| axis := "z"; angle := Int 0 |}) None).
  - unfold no_separator. vm_compute. intros H.
    repeat (apply elem_of_cons in H as [H | H]; [discriminate |]).
    by apply elem_of_nil in H.
  - unfold no_separator. vm_compute. intros H.
    repeat (apply elem_of_cons in H as [H | H]; [discriminate |]).
    by apply elem_of_nil in H.
  - split; [right; right; reflexivity | exists 0; reflexivity].
  - exact I.
Defined.

End IdentifierAlgebra.

(** ** The rotation variants of a block *)

Section RotationVariants.

Implicit Types (base : BaseBlock) (X Y : BlockConfiguration).

Lemma generateRotationVariants_eq base :
  generateRotationVariants base =
  [ {| id := base_id base; heights := base_heights base; rotation := None |};
    {| id := base_id base; heights := base_heights base;
       rotation := Some {| axis := "z"; angle := Int 90 |} |};
    {| id := base_id base; heights := base_heights base;
       rotation := Some {| axis := "z"; angle := Int 180 |} |};
    {| id := base_id base; heights := base_heights base;
       rotation := Some {| axis := "z"; angle := Int 270 |} |} ].
Proof. reflexivity. Qed.

(** What every variant of a base block has. *)
Lemma variant_fields base X :
  X ∈ generateRotationVariants base ->
  id X = base_id base /\ heights X = base_heights base
  /\ valid_rotation (rotation X)
  /\ normal_rotation (rotation X) = rotation X.
Proof.
  rewrite generateRotationVariants_eq. intros HX.
  repeat (apply elem_of_cons in HX as [-> | HX]);
    [| | | | by apply elem_of_nil in HX];
    simpl; repeat split; eauto.
Qed.

Lemma NoDup_fmap_elem_inj {T K : Type} (f : T -> K) (xs : list T) (a b : T) :
  NoDup (f <$> xs) -> a ∈ xs -> b ∈ xs -> f a = f b -> a = b.
Proof.
  intros Hnd [i Hi]%list_elem_of_lookup [j Hj]%list_elem_of_lookup Hab.
  assert (i = j) as ->.
  { apply (NoDup_lookup (f <$> xs) i j (f a) Hnd);
      rewrite list_lookup_fmap; [by rewrite Hi | by rewrite Hj, Hab]. }
  congruence.
Qed.

(** The variants are complete for turns about z: one more quarter turn of
    the effective edges of each variant gives the effective edges of the
    next variant, and from the last one those of the unrotated block. *)
Theorem generateRotationVariants_closed_under_turn base :
  let edges := getEffectiveEdges <$> generateRotationVariants base in
  (fun e => rotateEdges e "z" (Int 90)) <$> edges =
  drop 1 edges ++ take 1 edges.
Proof.
  rewrite generateRotationVariants_eq. cbn [fmap list_fmap drop take app].
  unfold getEffectiveEdges. cbn [heights rotation angle axis number_strict_eq].
  cbn [Z.eqb]. rewrite !rotateEdges_z.
  change (Z.to_nat (Z.rem (90 / 90) 4)) with 1%nat.
  change (Z.to_nat (Z.rem (180 / 90) 4)) with 2%nat.
  change (Z.to_nat (Z.rem (270 / 90) 4)) with 3%nat.
  cbn [Nat.iter nat_rect]. by rewrite z_body_four.
Qed.

(** Over base blocks with pairwise distinct identifiers that have no
    separator, all the generated variants have pairwise distinct composite
    keys. *)
Theorem generateRotationVariants_distinct_keys (bases : list BaseBlock) :
  NoDup (base_id <$> bases) ->
  Forall (fun base => no_separator (base_id base)) bases ->
  NoDup (composite_key <$> (bases ≫= generateRotationVariants)).
Proof.
  intros Hids Hsep.
  assert (Hsame : forall b1 b2 X Y,
            b1 ∈ bases -> b2 ∈ bases ->
            X ∈ generateRotationVariants b1 ->
            Y ∈ generateRotationVariants b2 ->
            composite_key X = composite_key Y -> b1 = b2 /\ X = Y).
  { intros b1 b2 X Y Hb1 Hb2 HX HY Hkey.
    destruct (variant_fields b1 X HX) as (HidX & HhX & HvX & HnX).
    destruct (variant_fields b2 Y HY) as (HidY & HhY & HvY & HnY).
    unfold composite_key in Hkey.
    apply getRotatedBlockId_keys in Hkey as [Hid Hrot]; try done.
    - assert (b1 = b2) as ->.
      { apply (NoDup_fmap_elem_inj base_id bases); [done | done | done |].
        congruence. }
      split; [done |]. rewrite HnX, HnY in Hrot.
      destruct X, Y. simpl in *. congruence.
    - rewrite HidX. by apply (proj1 (Forall_forall _ _) Hsep).
    - rewrite HidY. by apply (proj1 (Forall_forall _ _) Hsep). }
  apply NoDup_fmap_2_strong.
  - intros X Y (b1 & HX & Hb1)%list_elem_of_bind
      (b2 & HY & Hb2)%list_elem_of_bind Hkey.
    by destruct (Hsame b1 b2 X Y Hb1 Hb2 HX HY Hkey).
  - apply NoDup_bind.
    + intros b1 b2 X Hb1 Hb2 HX1 HX2.
      by destruct (Hsame b1 b2 X X Hb1 Hb2 HX1 HX2 eq_refl).
    + intros b _. rewrite generateRotationVariants_eq.
      repeat (apply NoDup_cons; split;
              [intros H;
               repeat (apply elem_of_cons in H as [H | H]; [discriminate |]);
               by apply elem_of_nil in H |]).
      apply NoDup_nil_2.
    + by apply NoDup_fmap_1 in Hids.
Qed.

Lemma generateRotationVariants_distinct_keys_witness :
  NoDup (composite_key <$>
           ([ {| base_id := "wall"; base_heights := "123456789" |};
              {| base_id := "ramp"; base_heights := "555335135" |} ]
            ≫= generateRotationVariants)).
Proof.
  apply (generateRotationVariants_distinct_keys
           [ {| base_id := "wall"; base_heights := "123456789" |};
             {| base_id := "ramp"; base_heights := "555335135" |} ]).
  - apply NoDup_cons. split.
    + intros H. apply elem_of_cons in H as [H | H]; [discriminate |].
      by apply elem_of_nil in H.
    + apply NoDup_cons. split; [apply not_elem_of_nil | apply NoDup_nil_2].
  - repeat (apply List.Forall_cons;
            [unfold no_separator; vm_compute; intros H;
             repeat (apply elem_of_cons in H as [H | H]; [discriminate |]);
             by apply elem_of_nil in H |]).
    apply List.Forall_nil.
Defined.

End RotationVariants.

(** ** The contents of the cache, for any catalog *)

Section CacheContents.

Implicit Types (db : list BlockConfiguration).

(** After a loop of insertions a key holds what the last element with that
    key wrote, or what was there before. *)
Lemma foldl_insert_last {T V} (f : T -> string) (g : T -> V) (l : list T)
    (m0 : gmap string V) (k : string) :
  foldl (fun m a => <[f a := g a]> m) m0 l !! k =
  match last (filter (fun a => f a = k) l) with
  | Some a => Some (g a)
  | None => m0 !! k
  end.
Proof.
  induction l as [| a l IH] using rev_ind; [done |].
  rewrite foldl_app, filter_app. simpl.
  rewrite filter_cons, filter_nil. case_decide as Hk.
  - rewrite last_snoc, Hk. apply lookup_insert_eq.
  - by rewrite app_nil_r, lookup_insert_ne.
Qed.

(** The pass for one direction writes the keys of that direction only. *)
Lemma direction_pass A d' db (m0 : gmap string bool) d kB :
  foldl (fun m b => <[cacheKey d' (composite_key b) :=
                        canBeAdjacent A b d']> m) m0 db
  !! cacheKey d kB =
  if decide (d' = d) then
    match last_with_key kB db with
    | Some B => Some (canBeAdjacent A B d)
    | None => m0 !! cacheKey d kB
    end
  else m0 !! cacheKey d kB.
Proof.
  rewrite (foldl_insert_last (fun b => cacheKey d' (composite_key b))
             (fun b => canBeAdjacent A b d')).
  case_decide as Hd.
  - subst d'. unfold last_with_key.
    rewrite (list_filter_iff (fun b => cacheKey d (composite_key b) =
                                       cacheKey d kB)
               (fun b => composite_key b = kB)); [done |].
    intros b. split; [by intros [_ ?]%cacheKey_inj | by intros ->].
  - replace (filter (fun b => cacheKey d' (composite_key b) = cacheKey d kB) db)
      with (@nil BlockConfiguration); [done |].
    symmetry. induction db as [| b db IH]; [done |].
    rewrite filter_cons_False; [done |].
    by intros [? _]%cacheKey_inj.
Qed.

(** For every catalog, with or without repeated keys, the construction runs
    to its end, and the cache holds under (keyA, d, keyB) the verdict for
    the last catalog entries with these keys; a key that no entry has is
    not in the cache. *)
Theorem cache_contents (catalog : list BlockConfiguration) :
  exists this,
    constructor catalog = Some this
    /\ forall keyA d keyB,
         cache_entry (adjacencyCache this) keyA d keyB =
         match last_with_key keyA catalog, last_with_key keyB catalog with
         | Some A, Some B => Some (canBeAdjacent A B d)
         | _, _ => None
         end.
Proof.
  unfold constructor, precomputeAdjacencies.
  cbn [blockDatabase adjacencyCache].
  rewrite outer_loop. eexists. split; [done |].
  intros keyA d keyB. unfold cache_entry. cbn [adjacencyCache].
  rewrite (foldl_insert_last composite_key). fold (last_with_key keyA catalog).
  destruct (last_with_key keyA catalog) as [A |]; [| done].
  unfold directions. cbn [foldl].
  rewrite !direction_pass.
  destruct d; repeat case_decide; try done;
    by destruct (last_with_key keyB catalog).
Qed.

End CacheContents.

(** ** Turning two blocks together *)

Section Covariance.

Implicit Types (ea eb : list value) (i j h : string) (k : Z).

Lemma edges_test_reverse ea eb :
  (length (reverse ea) =? length (reverse eb))%nat
  && every_eq_from 0 (reverse ea) (reverse eb) =
  (length ea =? length eb)%nat && every_eq_from 0 ea eb.
Proof.
  apply eq_true_iff_eq. rewrite !edges_test_equal, Forall_reverse.
  split; intros [Heq Hok]; (split; [| done]).
  - by apply (inj reverse).
  - by rewrite Heq.
Qed.

(** The effective edges of a block turned by [k] quarter turns about an
    axis. *)
Lemma effective_quarter_turns i h ax k :
  0 <= k ->
  getEffectiveEdges
    {| id := i; heights := h;
       rotation := Some {| axis := ax; angle := Int (90 * k) |} |} =
  rotateEdges (extractEdges h) ax (Int (90 * k)).
Proof.
  intros Hk. unfold getEffectiveEdges. cbn [heights rotation angle axis].
  cbn [number_strict_eq]. destruct (Z.eqb_spec (90 * k) 0) as [H0 | _]; [| done].
  rewrite H0. by rewrite rotateEdges_zero.
Qed.

(** Adjacency follows a common turn about z: if both blocks get one more
    quarter turn, they fit in the turned direction exactly when they fitted
    in the direction before. *)
Theorem canBeAdjacent_turned_together i h ka j h' kb d :
  0 <= ka -> 0 <= kb ->
  canBeAdjacent
    {| id := i; heights := h;
       rotation := Some {| axis := "z"; angle := Int (90 * (ka + 1)) |} |}
    {| id := j; heights := h';
       rotation := Some {| axis := "z"; angle := Int (90 * (kb + 1)) |} |}
    (turned_z d) =
  canBeAdjacent
    {| id := i; heights := h;
       rotation := Some {| axis := "z"; angle := Int (90 * ka) |} |}
    {| id := j; heights := h';
       rotation := Some {| axis := "z"; angle := Int (90 * kb) |} |}
    d.
Proof.
  intros Ha Hb. rewrite !canBeAdjacent_unfold. unfold effective_edge.
  rewrite !effective_quarter_turns by lia.
  rewrite !rotateEdges_quarter_turns by lia. cbn [String.eqb Ascii.eqb].
  change (if String.eqb "z" "z" then ?a else ?b) with a.
  replace (Z.to_nat (ka + 1)) with (S (Z.to_nat ka)) by lia.
  replace (Z.to_nat (kb + 1)) with (S (Z.to_nat kb)) by lia.
  cbn [Nat.iter nat_rect]. rewrite !z_body_eq.
  destruct d; cbn [turned_z getOppositeDirection edge north south east west];
    try done; apply edges_test_reverse.
Qed.

Lemma canBeAdjacent_turned_together_witness :
  canBeAdjacent
    {| id := "A"; heights := "123456789";
       rotation := Some {| axis := "z"; angle := Int (90 * (0 + 1)) |} |}
    {| id := "B"; heights := "999999999";
       rotation := Some {| axis := "z"; angle := Int (90 * (2 + 1)) |} |}
    (turned_z East) =
  canBeAdjacent
    {| id := "A"; heights := "123456789";
       rotation := Some {| axis := "z"; angle := Int (90 * 0) |} |}
    {| id := "B"; heights := "999999999";
       rotation := Some {| axis := "z"; angle := Int (90 * 2) |} |}
    East.
Proof.
  apply (canBeAdjacent_turned_together "A" "123456789" 0
           "B" "999999999" 2 East); lia.
Defined.

(** Flipping two unrotated blocks together about y swaps north and south,
    about x it swaps east and west: the flipped blocks fit in the flipped
    direction exactly when the blocks fitted in the direction before. *)
Theorem canBeAdjacent_flipped_together i h j h' d :
  canBeAdjacent
    {| id := i; heights := h;
       rotation := Some {| axis := "y"; angle := Int 90 |} |}
    {| id := j; heights := h';
       rotation := Some {| axis := "y"; angle := Int 90 |} |}
    (flipped_y d) =
  canBeAdjacent {| id := i; heights := h; rotation := None |}
                {| id := j; heights := h'; rotation := None |} d
  /\ canBeAdjacent
       {| id := i; heights := h;
          rotation := Some {| axis := "x"; angle := Int 90 |} |}
       {| id := j; heights := h';
          rotation := Some {| axis := "x"; angle := Int 90 |} |}
       (flipped_x d) =
     canBeAdjacent {| id := i; heights := h; rotation := None |}
                   {| id := j; heights := h'; rotation := None |} d.
Proof.
  rewrite !canBeAdjacent_unfold. unfold effective_edge, getEffectiveEdges.
  cbn [heights rotation angle axis number_strict_eq Z.eqb].
  rewrite !rotateEdges_x, !rotateEdges_y.
  change (Z.to_nat (Z.rem (90 / 90) 4)) with 1%nat.
  cbn [Nat.iter nat_rect]. rewrite !x_body_eq, !y_body_eq.
  split; destruct d;
    cbn [flipped_x flipped_y getOppositeDirection edge north south east west];
    apply edges_test_reverse.
Qed.

End Covariance.

(** ** Decoding what was never encoded *)

Section LenientDecoding.

(** Decoding rejects nothing: an axis letter outside x, y, z comes back as
    it is with its angle, for a nonzero angle that is a safe integer, and an
    identifier that ends in the separator decodes to an empty axis and the
    angle [NaN]. *)
Theorem parseRotatedBlockId_is_lenient (b : string) :
  no_separator b ->
  (forall (c : ascii) a, c ≠ "_"%char -> a ≠ 0 -> safe_integer a ->
     parseRotatedBlockId
       (b +:+ "_" +:+ String c EmptyString +:+ Number_toString (Int a)) =
     {| baseId := b;
        parsed_rotation :=
          Some {| axis := String c EmptyString; angle := Int a |} |})
  /\ parseRotatedBlockId (b +:+ "_") =
     {| baseId := b;
        parsed_rotation := Some {| axis := ""; angle := NaN |} |}.
Proof.
  intros Hb. split.
  - intros c a Hc Ha Hsafe.
    pose proof (parse_encoded b c a Hb Hc Ha Hsafe) as Henc.
    unfold getRotatedBlockId in Henc. cbn [angle axis number_strict_eq] in Henc.
    by rewrite (proj2 (Z.eqb_neq a 0) Ha) in Henc.
  - unfold parseRotatedBlockId.
    change (b +:+ "_") with (b +:+ String "_" EmptyString).
    by rewrite split_char_append.
Qed.

Lemma parseRotatedBlockId_is_lenient_witness :
  parseRotatedBlockId
    ("wall" +:+ "_" +:+ String "q" EmptyString +:+ Number_toString (Int 45)) =
  {| baseId := "wall";
     parsed_rotation := Some {| axis := "q"; angle := Int 45 |} |}.
Proof.
  refine (proj1 (parseRotatedBlockId_is_lenient "wall" _) "q"%char 45 _ _ _).
  - unfold no_separator. vm_compute. intros H.
    repeat (apply elem_of_cons in H as [H | H]; [discriminate |]).
    by apply elem_of_nil in H.
  - discriminate.
  - discriminate.
  - unfold safe_integer. lia.
Defined.

(** Past 2^53 the decoded angle is the nearest double, not the digits
    written. *)
Lemma parseRotatedBlockId_rounds_long_angle :
  parseRotatedBlockId "wall_q9007199254740993" =
  {| baseId := "wall";
     parsed_rotation :=
       Some {| axis := "q"; angle := Int 9007199254740992 |} |}.
Proof. vm_compute. reflexivity. Qed.

End LenientDecoding.
